(** * internal-docs-rag: ingestion, index build and retrieval

    A shallow embedding of [src/ingest.py], [src/build_index.py] and
    [src/retriever.py], with the properties of the retrieval subsystem
    stated and settled against it.

    Conventions of the embedding:
    - a Python [str] is the list of its Unicode code points ([N]);
    - a Python exception is a value of [exn] carried by [result];
    - the files on disk are a finite map from path to content;
    - the floating-point numbers of numpy/faiss are an abstract type with
      abstract arithmetic: nothing is assumed about them. *)

From Stdlib Require Import ZArith NArith Lia Ascii String.
From stdpp Require Import base option list gmap strings.

Local Open Scope N_scope.

(** ** Python strings *)

Module Py.

Definition char := N.
Definition str := list char.

(** A literal of the source, written as a Rocq string (ASCII only). *)
Definition lit (s : string) : str :=
  List.map N_of_ascii (list_ascii_of_string s).

Definition NL : char := 10.
Definition TAB : char := 9.
Definition SPACE : char := 32.
Definition HASH : char := 35.
Definition LBRACE : char := 123.
Definition RBRACE : char := 125.

(** [str.isspace] on one character, CPython's [_PyUnicode_IsWhitespace]:
    it is what [str.strip()], [str.split()] and the regex class [\s] use
    on [str] values. *)
Definition isspace (c : char) : bool :=
  ((9 <=? c) && (c <=? 13)) || ((28 <=? c) && (c <=? 32))
  || (c =? 133) || (c =? 160) || (c =? 5760)
  || ((8192 <=? c) && (c <=? 8202))
  || (c =? 8232) || (c =? 8233) || (c =? 8239) || (c =? 8287)
  || (c =? 12288).

Fixpoint take_while {A} (p : A -> bool) (l : list A) : list A :=
  match l with
  | [] => []
  | x :: t => if p x then x :: take_while p t else []
  end.

Fixpoint drop_while {A} (p : A -> bool) (l : list A) : list A :=
  match l with
  | [] => []
  | x :: t => if p x then drop_while p t else l
  end.

(** [s.lstrip()], [s.rstrip()], [s.strip()] with no argument. *)
Definition lstrip (s : str) : str := drop_while isspace s.
Definition rstrip (s : str) : str := rev (drop_while isspace (rev s)).
Definition strip (s : str) : str := rstrip (lstrip s).

(** [sep.join(parts)]. *)
Fixpoint join (sep : str) (parts : list str) : str :=
  match parts with
  | [] => []
  | [w] => w
  | w :: ws => w ++ sep ++ join sep ws
  end.

(** [s.split()] with no argument: the maximal runs of non-whitespace
    characters, in order.  [cur] is the word being read, reversed. *)
Definition flush (cur : str) (ws : list str) : list str :=
  match cur with
  | [] => ws
  | _ => rev cur :: ws
  end.

Fixpoint split_from (cur : str) (s : str) : list str :=
  match s with
  | [] => flush cur []
  | c :: t =>
      if isspace c then flush cur (split_from [] t)
      else split_from (c :: cur) t
  end.

Definition split (s : str) : list str := split_from [] s.

(** [l[i]] for a Python list and a (possibly negative) integer index:
    a negative index counts from the end, anything out of range raises
    [IndexError] (here [None]). *)
Definition index {A} (l : list A) (i : Z) : option A :=
  let n := Z.of_nat (length l) in
  if (0 <=? i)%Z then l !! Z.to_nat i
  else if (- n <=? i)%Z then l !! Z.to_nat (n + i)
  else None.

(** [l[lo:hi]] for [0 <= lo]: the bounds are clipped to the list. *)
Definition slice {A} (l : list A) (lo hi : Z) : list A :=
  take (Z.to_nat (hi - lo)) (drop (Z.to_nat lo) l).

(** [range(start, stop, step)]; [None] is the [ValueError] of a zero step. *)
Definition range (start stop step : Z) : option (list Z) :=
  if (step =? 0)%Z then None
  else
    let count :=
      (if 0 <? step then (stop - start + step - 1) / step
       else (start - stop - step - 1) / (- step))%Z in
    Some (List.map (fun i => start + Z.of_nat i * step)%Z
                   (seq 0 (Z.to_nat count))).

End Py.

(** ** Regular expressions of the source

    Every pattern of the source matches at a position by looking only at
    the text from that position on, and never matches the empty string.
    Such a pattern is embedded as a matcher: given the text from a
    position on, the length of the match that starts there, if any. *)

Module Re.
Import Py.

Definition matcher := str -> option nat.

(** [re.sub(pattern, repl, s)]: leftmost non-overlapping matches, scanned
    left to right, are replaced by [repl].  [skip] counts the characters
    of the current match still to be passed over. *)
Fixpoint sub_from (m : matcher) (repl : str) (skip : nat) (s : str) : str :=
  match s with
  | [] => []
  | c :: t =>
      match skip with
      | S k => sub_from m repl k t
      | O =>
          match m s with
          | Some (S k) => repl ++ sub_from m repl k t
          | _ => c :: sub_from m repl 0 t
          end
      end
  end.

Definition sub (m : matcher) (repl : str) (s : str) : str :=
  sub_from m repl 0 s.

(** [re.search(pattern, s) is not None]. *)
Fixpoint search (m : matcher) (s : str) : bool :=
  match s with
  | [] => false
  | _ :: t =>
      match m s with
      | Some (S _) => true
      | _ => search m t
      end
  end.

(** [re.split(pattern, s)] for a pattern without groups: the pieces of
    [s] between the leftmost non-overlapping matches.  [cur] is the piece
    being read, reversed. *)
Fixpoint split_from (m : matcher) (skip : nat) (cur : str) (s : str)
  : list str :=
  match s with
  | [] => [rev cur]
  | c :: t =>
      match skip with
      | S k => split_from m k cur t
      | O =>
          match m s with
          | Some (S k) => rev cur :: split_from m k [] t
          | _ => split_from m 0 (c :: cur) t
          end
      end
  end.

Definition split (m : matcher) (s : str) : list str := split_from m 0 [] s.

(** [\{#.*?\}]: an opening brace and a hash, then as few characters other
    than a newline as possible, then a closing brace. *)
Fixpoint anchor_body (s : str) : option nat :=
  match s with
  | [] => None
  | c :: t =>
      if c =? RBRACE then Some 1%nat
      else if c =? NL then None
      else S <$> anchor_body t
  end.

Definition anchor : matcher := fun s =>
  match s with
  | a :: b :: t =>
      if (a =? LBRACE) && (b =? HASH) then (fun n => S (S n)) <$> anchor_body t
      else None
  | _ => None
  end.

(** One literal letter [p] (lower case) under [re.IGNORECASE] on a [str]
    pattern: the characters whose lower case is [p], and the two letters
    that the regex engine adds for [i] and the one for [k]. *)
Definition letter_ci (p c : char) : bool :=
  (c =? p) || (c =? p - 32)
  || ((p =? 105) && ((c =? 304) || (c =? 305)))
  || ((p =? 107) && (c =? 8490)).

Fixpoint literal_ci (pat : str) (s : str) : bool :=
  match pat, s with
  | [], _ => true
  | p :: pat', c :: t => letter_ci p c && literal_ci pat' t
  | _ :: _, [] => false
  end.

(** [headerlink] with [flags=re.IGNORECASE]. *)
Definition headerlink : matcher := fun s =>
  if literal_ci (lit "headerlink") s then Some 10%nat else None.

(** [\n{3,}]: three or more newlines, as many as there are. *)
Definition is_nl (c : char) : bool := c =? NL.

Definition newlines3 : matcher := fun s =>
  let k := length (take_while is_nl s) in
  if (3 <=? k)%nat then Some k else None.

(** [[ \t]+]: one or more spaces or tabs, as many as there are. *)
Definition is_blank (c : char) : bool := (c =? SPACE) || (c =? TAB).

Definition blanks : matcher := fun s =>
  let k := length (take_while is_blank s) in
  if (1 <=? k)%nat then Some k else None.

(** [\n##+\s]: a newline, two or more hashes, one whitespace character. *)
Definition is_hash (c : char) : bool := c =? HASH.

Definition header : matcher := fun s =>
  match s with
  | c :: t =>
      if c =? NL then
        let k := length (take_while is_hash t) in
        match drop_while is_hash t with
        | w :: _ => if (2 <=? k)%nat && isspace w then Some (S (S k)) else None
        | [] => None
        end
      else None
  | [] => None
  end.

End Re.

(** ** Exceptions *)

Inductive exn :=
  | ValueError | IndexError | RuntimeError | AssertionError | OSError
  | UnicodeDecodeError | UnpicklingError.

Inductive result (A : Type) :=
  | Ok (a : A)
  | Raise (e : exn).
Arguments Ok {A} a.
Arguments Raise {A} e.

Definition bind {A B} (r : result A) (k : A -> result B) : result B :=
  match r with
  | Ok a => k a
  | Raise e => Raise e
  end.

Notation "'do' x <- r ; k" := (bind r (fun x => k))
  (at level 10, x name, r at level 100, k at level 200).

(** A [for] loop whose body may raise, threading the loop's variables. *)
Fixpoint for_each {A S} (body : S -> A -> result S) (l : list A) (acc : S)
  : result S :=
  match l with
  | [] => Ok acc
  | x :: t => do acc' <- body acc x; for_each body t acc'
  end.

(** ** [src/config.py] *)

Module Config.
Definition CHUNK_SIZE : Z := 500.
Definition CHUNK_OVERLAP : Z := 100.
Definition PROCESSED_DATA_DIR : string := "data/processed".
Definition INDEX_PATH : string := "data/processed/faiss.index".
Definition EMBEDDINGS_PATH : string := "data/processed/embeddings.npy".
Definition DOCS_PATH : string := "data/processed/docs.pkl".
End Config.

(** ** [src/ingest.py] *)

Import Py.

Definition clean_markdown_text (text : str) : str :=
  let text := Re.sub Re.anchor [] text in
  let text := Re.sub Re.headerlink [] text in
  let text := Re.sub Re.newlines3 [NL; NL] text in
  let text := Re.sub Re.blanks [SPACE] text in
  strip text.

(** The inner loop of [split_into_chunks], for the words of one section:
    [candidate] is the window joined by spaces, [keep] the test that
    guards [chunks.append]. *)
Definition candidate (words : list str) (chunk_size : Z) (start : Z) : str :=
  join [SPACE] (slice words start (start + chunk_size)).

Definition keep (chunk : str) : bool := (50 <? length (strip chunk))%nat.

Definition section_candidates (chunk_size : Z) (section : str)
  : result (list str) :=
  let words := Py.split section in
  match range 0 (Z.of_nat (length words)) chunk_size with
  | None => Raise ValueError
  | Some starts => Ok (List.map (candidate words chunk_size) starts)
  end.

Definition section_chunks (chunk_size : Z) (section : str)
  : result (list str) :=
  do cands <- section_candidates chunk_size section;
  Ok (List.filter keep cands).

Definition sections_of (text : str) : list str := Re.split Re.header text.

Definition split_into_chunks (text : str) (chunk_size : Z)
  : result (list str) :=
  for_each
    (fun chunks section =>
       do cs <- section_chunks chunk_size section; Ok (chunks ++ cs))
    (sections_of text) [].

(** The candidate chunks of a whole text: what [split_into_chunks] would
    return without the guard on [chunks.append]. *)
Definition all_candidates (text : str) (chunk_size : Z) : result (list str) :=
  for_each
    (fun chunks section =>
       do cs <- section_candidates chunk_size section; Ok (chunks ++ cs))
    (sections_of text) [].

(** The windows of [chunk_size] words that the inner loop slices. *)
Definition windows (chunk_size : Z) (words : list str) : list (list str) :=
  List.map (fun start => slice words start (start + chunk_size))
           (default [] (range 0 (Z.of_nat (length words)) chunk_size)).

(** The section boundaries in the words of the specification: the lines
    that begin with two or more hashes and a whitespace character, the
    first line of the text included. *)
Definition header_here (s : str) : bool :=
  (2 <=? length (take_while Re.is_hash s))%nat
  && match drop_while Re.is_hash s with
     | w :: _ => isspace w
     | [] => false
     end.

Fixpoint header_lines_after_newline (s : str) : nat :=
  match s with
  | [] => 0
  | c :: t =>
      ((if (c =? NL)%N && header_here t then 1 else 0)
       + header_lines_after_newline t)%nat
  end.

Definition spec_header_lines (text : str) : nat :=
  ((if header_here text then 1 else 0) + header_lines_after_newline text)%nat.

(** A document chunk: the dict with the keys ["text"] and ["source"]. *)
Record doc := Doc { text : str; source : str }.

(** What [open(file_path, "r", encoding="utf-8")] and [f.read()] meet: a
    file whose bytes are valid UTF-8, with its text; a file whose bytes
    are not valid UTF-8; a file that cannot be opened or read. *)
Inductive file_state :=
  | Text (t : str)
  | Undecodable
  | Unreadable.

(** One file met by [os.walk(RAW_DATA_DIR)], in the order of the walk: its
    name, its path relative to the raw data directory, and its state. *)
Record walked := Walked {
  filename : str;
  relative_source : str;
  contents : file_state
}.

Fixpoint startswith (s prefix : str) : bool :=
  match prefix, s with
  | [], _ => true
  | p :: prefix', c :: t => (c =? p) && startswith t prefix'
  | _ :: _, [] => false
  end.

Definition endswith (s suffix : str) : bool :=
  startswith (rev s) (rev suffix).

(** [open] raises [OSError] (a missing file, no permission); [f.read()]
    raises [UnicodeDecodeError], which is a [ValueError] and no [OSError],
    on bytes that are not valid UTF-8. *)
Definition read_markdown_file (f : walked) : result str :=
  match contents f with
  | Text t => Ok t
  | Undecodable => Raise UnicodeDecodeError
  | Unreadable => Raise OSError
  end.

Definition ingest_raw_documents (walk : list walked) : result (list doc) :=
  for_each
    (fun documents f =>
       if negb (endswith (filename f) (lit ".md")) then Ok documents
       else
         do raw_text <- read_markdown_file f;
         let cleaned_text := clean_markdown_text raw_text in
         do chunks <- split_into_chunks cleaned_text Config.CHUNK_SIZE;
         Ok (documents
               ++ List.map (fun chunk => Doc chunk (relative_source f)) chunks))
    walk [].

(** ** The collaborators: floating point, the embedding model, faiss *)

Section Pipeline.

(** The floating-point numbers of the arrays, with their addition,
    multiplication and comparison: left abstract. *)
Variable F : Type.
Variable Fzero : F.
Variable Fadd Fmul : F -> F -> F.
Variable Fltb : F -> F -> bool.

Definition vec := list F.

(** [SentenceTransformer(EMBEDDING_MODEL).encode(texts, ...)]: one row per
    text, in the order of the texts.  [embed] is the model of one run; the
    model is made anew at each build and at each query, and what is said
    about two runs below takes two embedders. *)
Variable embed : str -> vec.

Definition encode (texts : list str) : list vec := List.map embed texts.

(** A numpy array of one or two dimensions; [Array2 d rows] has shape
    [(length rows, d)]. *)
Inductive ndarray :=
  | Array1 (v : vec)
  | Array2 (d : nat) (rows : list vec).

(** [faiss.IndexFlatIP]: the dimension and the stored vectors, in the
    order they were added. *)
Record index_flat_ip := IndexFlatIP { ix_d : nat; ix_xb : list vec }.

Definition index_add (ix : index_flat_ip) (rows : list vec) : index_flat_ip :=
  IndexFlatIP (ix_d ix) (ix_xb ix ++ rows).

Definition inner_product (x y : vec) : F :=
  fold_left Fadd (zip_with Fmul x y) Fzero.

(** Insertion into a list sorted by decreasing score: the new entry goes
    after the entries of strictly greater score.  (How faiss orders equal
    scores is not specified; nothing below depends on it.) *)
Fixpoint insert_desc (e : nat * F) (l : list (nat * F)) : list (nat * F) :=
  match l with
  | [] => [e]
  | h :: t => if Fltb (snd e) (snd h) then h :: insert_desc e t else e :: l
  end.

Definition rank_desc (l : list (nat * F)) : list (nat * F) :=
  fold_right insert_desc [] l.

(** The labels that [index.search] gives for one query and [k]: the rows
    by decreasing inner product, cut to [k]; when the index holds fewer
    than [k] vectors, the missing labels are [-1].  The scores are taken
    to be numbers that [Fltb] orders: a score that is not a number, for
    which faiss leaves the label [-1] as well, is outside this model, and
    so is the order faiss gives to equal scores. *)
Definition search_labels (ix : index_flat_ip) (q : vec) (k : nat) : list Z :=
  let scored := imap (fun i x => (i, inner_product q x)) (ix_xb ix) in
  let found := take k (rank_desc scored) in
  List.map (fun e => Z.of_nat (fst e)) found
    ++ replicate (k - length found) (-1)%Z.

(** [index.search(x, k)], the label matrix only (the score matrix is not
    used by the caller): faiss asserts that [x] is two-dimensional with
    the dimension of the index, and that [k] is positive. *)
Definition index_search (ix : index_flat_ip) (x : ndarray) (k : Z)
  : result (list (list Z)) :=
  match x with
  | Array1 _ => Raise ValueError
  | Array2 d rows =>
      if negb (d =? ix_d ix)%nat then Raise AssertionError
      else if negb (0 <? k)%Z then Raise AssertionError
      else Ok (List.map (fun q => search_labels ix q (Z.to_nat k)) rows)
  end.

(** ** The files of the processed data directory *)

(** The disk is the data directory of the project: the directories made
    and the files written there.  What the embedding library keeps in a
    cache of its own is outside it. *)

Inductive content :=
  | Npy (rows : list vec)
  | Pickle (docs : list doc)
  | FaissIndex (ix : index_flat_ip).

Record disk := Disk { dirs : gset string; files : gmap string content }.

Definition makedirs (p : string) (σ : disk) : disk :=
  Disk ({[p]} ∪ dirs σ) (files σ).

Definition write_file (p : string) (c : content) (σ : disk) : disk :=
  Disk (dirs σ) (<[p := c]> (files σ)).

(** ** [src/build_index.py] *)

(** [embeddings.shape[1]]. *)
Definition shape1 (m : list vec) : result nat :=
  match m with
  | r :: _ => Ok (length r)
  | [] => Raise IndexError
  end.

(** [build_index()]: the result and the disk it leaves.  The [print]
    calls are left out. *)
Definition build_index (walk : list walked) (σ : disk) : result unit * disk :=
  match ingest_raw_documents walk with
  | Raise e => (Raise e, σ)
  | Ok documents =>
      match documents with
      | [] => (Raise RuntimeError, σ)
      | _ =>
          let texts := List.map text documents in
          let embeddings := encode texts in
          let σ := makedirs Config.PROCESSED_DATA_DIR σ in
          let σ := write_file Config.EMBEDDINGS_PATH (Npy embeddings) σ in
          let σ := write_file Config.DOCS_PATH (Pickle documents) σ in
          match shape1 embeddings with
          | Raise e => (Raise e, σ)
          | Ok embedding_dim =>
              let index := IndexFlatIP embedding_dim [] in
              let index := index_add index embeddings in
              (Ok tt, write_file Config.INDEX_PATH (FaissIndex index) σ)
          end
      end
  end.

(** ** [src/retriever.py] *)

(** [faiss.read_index] comes first and raises [RuntimeError] when the
    file is missing or is no index; then [open] raises [OSError] when the
    corpus file is missing, and [pickle.load] raises on a file that is no
    pickle. *)
Definition load_faiss_index (σ : disk)
  : result (index_flat_ip * list doc) :=
  match files σ !! Config.INDEX_PATH with
  | Some (FaissIndex index) =>
      match files σ !! Config.DOCS_PATH with
      | Some (Pickle documents) => Ok (index, documents)
      | Some _ => Raise UnpicklingError
      | None => Raise OSError
      end
  | _ => Raise RuntimeError
  end.

(** [x[0]] and [documents[doc_index]]. *)
Definition getitem {A} (l : list A) (i : Z) : result A :=
  match Py.index l i with
  | Some a => Ok a
  | None => Raise IndexError
  end.

Definition retrieve_documents (σ : disk) (query_embedding : ndarray)
  (top_k : Z) : result (list doc) :=
  do loaded <- load_faiss_index σ;
  let '(index, documents) := loaded in
  let query_embedding :=
    match query_embedding with
    | Array1 v => Array2 (length v) [v]
    | Array2 _ _ => query_embedding
    end in
  do indices <- index_search index query_embedding top_k;
  do row <- getitem indices 0;
  for_each
    (fun results doc_index =>
       do d <- getitem documents doc_index; Ok (results ++ [d]))
    row [].

End Pipeline.


Arguments Array1 {F} v.
Arguments Array2 {F} d rows.
Arguments IndexFlatIP {F} ix_d ix_xb.
Arguments ix_d {F} i.
Arguments ix_xb {F} i.
Arguments Npy {F} rows.
Arguments Pickle {F} docs.
Arguments FaissIndex {F} ix.
Arguments Disk {F} dirs files.
Arguments dirs {F} d.
Arguments files {F} d.
Arguments makedirs {F} p σ.
Arguments write_file {F} p c σ.
Arguments index_add {F} ix rows.
Arguments shape1 {F} m.
Arguments load_faiss_index {F} σ.

Local Close Scope N_scope.

(** ** [src/evaluate.py] *)

(** [l[:k]]: a negative [k] counts from the end of the list. *)
Definition slice_to {A} (l : list A) (k : Z) : list A :=
  if (0 <=? k)%Z then take (Z.to_nat k) l
  else take (Z.to_nat (Z.of_nat (length l) + k)) l.

Definition recall_at_k (retrieved_indices relevant_indices : list Z) (k : Z)
  : bool :=
  bool_decide
    (0 < size ((list_to_set (slice_to retrieved_indices k) : gset Z)
               ∩ list_to_set relevant_indices)).

(** ** [app/ui.py], the query handling

    From the question to the context handed to the generator: the
    question is encoded as a batch of one, three chunks are asked for,
    and the text of the first one is the context.  [None] stands for the
    empty question, for which nothing is done. *)
Definition query_context {F : Type} (Fzero : F) (Fadd Fmul : F -> F -> F)
  (Fltb : F -> F -> bool) (embed : str -> list F)
  (σ : disk F) (question : str) : result (option str) :=
  match question with
  | [] => Ok None
  | _ =>
      let query_embedding :=
        Array2 (length (embed question)) (encode F embed [question]) in
      do retrieved_docs <-
        retrieve_documents F Fzero Fadd Fmul Fltb σ query_embedding 3;
      let context :=
        match retrieved_docs with
        | d :: _ => text d
        | [] => []
        end in
      Ok (Some context)
  end.

(** The markdown files of a walk. *)
Definition is_markdown (f : walked) : bool := endswith (filename f) (lit ".md").

(** The length of [" ".join(words)]. *)
Definition joined_length (words : list str) : nat :=
  length (join [SPACE] words).

(** The documents that one walked file contributes: the body of the loop
    of [ingest_raw_documents], without its accumulator. *)
Definition file_result (f : walked) : result (list doc) :=
  if negb (is_markdown f) then Ok []
  else
    do raw_text <- read_markdown_file f;
    do chunks <-
      split_into_chunks (clean_markdown_text raw_text) Config.CHUNK_SIZE;
    Ok (List.map (fun chunk => Doc chunk (relative_source f)) chunks).

(** ** Words *)

Definition nospace (w : str) : Prop := Forall (fun c => isspace c = false) w.
Definition is_word (w : str) : Prop := w <> [] /\ nospace w.

(** ** The chunker, section by section *)

(** The candidate chunks and the chunks of a text as pure functions of
    its sections, for a non-zero chunk size. *)
Definition candidates_of (w : Z) (section : str) : list str :=
  List.map (join [SPACE]) (windows w (Py.split section)).

(** ** The loop of [retrieve_documents] *)

(** The results for one row of labels: the loop of [retrieve_documents]. *)
Definition collect (documents : list doc) (row : list Z) (acc : list doc)
  : result (list doc) :=
  for_each
    (fun results doc_index =>
       do d <- getitem documents doc_index; Ok (results ++ [d]))
    row acc.

(** ** [re.split], pieces and separators *)

(** The pieces and the separators put back together. *)
Fixpoint interleave (pieces seps : list str) : str :=
  match pieces, seps with
  | p :: ps, s :: ss => p ++ s ++ interleave ps ss
  | p :: _, [] => p
  | [], _ => []
  end.

(** No match of [m] starts at the head of [s]. *)
Definition no_match_at (m : Re.matcher) (s : str) : Prop :=
  match m s with Some (S _) => False | _ => True end.

(** The separator that the header pattern consumes: a newline, two or
    more hashes, one whitespace character. *)
Definition header_separator (sep : str) : Prop :=
  exists hs w,
    sep = NL :: hs ++ [w]
    /\ Forall (fun c => c = HASH) hs /\ 2 <= length hs /\ isspace w = true.

(** ** The whitespace stages of the cleaner *)

Definition nl_run (s : str) : nat := length (take_while Re.is_nl s).

(** No three newlines in a row. *)
Fixpoint no3 (s : str) : Prop :=
  match s with
  | [] => True
  | _ :: t => nl_run s < 3 /\ no3 t
  end.

(** Every space or tab is a single space followed by neither. *)
Fixpoint single_blanks (s : str) : Prop :=
  match s with
  | [] => True
  | c :: t =>
      (Re.is_blank c = true -> c = SPACE /\ take_while Re.is_blank t = [])
      /\ single_blanks t
  end.

Definition squeeze_newlines (s : str) : str := Re.sub Re.newlines3 [NL; NL] s.
Definition squeeze_blanks (s : str) : str := Re.sub Re.blanks [SPACE] s.

(** ** Sample inputs

    The arrays of the samples hold integers in place of floating-point
    numbers; the labels and the lengths do not depend on the scores. *)

Definition sample_text : str :=
  lit "aaaaaaaaaa bbbbbbbbbb cccccccccc dddddddddd eeeeeeeeee ffffffffff".

Definition sample_walk : list walked :=
  [Walked (lit "guide.md") (lit "api/guide.md") (Text sample_text);
   Walked (lit "notes.txt") (lit "notes.txt") (Text sample_text)].

Definition short_walk : list walked :=
  [Walked (lit "stub.md") (lit "stub.md") (Text (lit "## Title"))].

Definition sample_embed (t : str) : list Z :=
  [Z.of_nat (length t); 1%Z].

(** Another embedder, as a later run of the model may be. *)
Definition other_embed (t : str) : list Z :=
  [1%Z; Z.of_nat (length t)].

Definition empty_disk : disk Z := Disk ∅ ∅.

Definition text_a : str :=
  lit "alpha alpha alpha alpha alpha alpha alpha alpha alpha alpha".
Definition text_b : str :=
  lit "bravo bravo bravo bravo bravo bravo bravo bravo bravo bravo bravo".
Definition text_c : str :=
  lit "charlie charlie charlie charlie charlie charlie charlie".

Definition corpus_walk : list walked :=
  [Walked (lit "a.md") (lit "a.md") (Text text_a);
   Walked (lit "b.md") (lit "b.md") (Text text_b);
   Walked (lit "c.md") (lit "c.md") (Text text_c)].

Definition corpus_disk : disk Z :=
  snd (build_index Z sample_embed corpus_walk empty_disk).


(** A processed data directory with the index file but no corpus file. *)
Definition index_only_disk : disk Z :=
  Disk ∅ (<[Config.INDEX_PATH := FaissIndex (IndexFlatIP 2 [[1; 0]%Z])]> ∅).

(** A processed data directory in use: the stale artifacts of an earlier
    build over other files, and one more file beside them. *)
Definition used_disk : disk Z :=
  Disk ({["data/processed"%string]} ∪ {["data/raw"%string]})
       (<["data/processed/notes.npy"%string := Npy [[7; 7]%Z]]>
        (<[Config.INDEX_PATH := FaissIndex (IndexFlatIP 2 [[9; 9]%Z])]>
         (<[Config.DOCS_PATH := Pickle [Doc (lit "stale") (lit "old.md")]]>
          (<[Config.EMBEDDINGS_PATH := Npy [[9; 9]%Z]]> ∅)))).

(** The index that the build leaves for [corpus_walk]. *)
Definition corpus_index : index_flat_ip Z :=
  IndexFlatIP 2 [[59; 1]; [65; 1]; [55; 1]]%Z.

(** A text of eleven words: at six words a chunk, two chunks of more
    than 50 characters. *)
Definition last_chunk_text : str :=
  lit "gggggggggg hhhhhhhhhh iiiiiiiiii jjjjjjjjjj kkkkkkkkkk".

Definition two_chunk_text : str :=
  sample_text ++ [NL] ++ last_chunk_text.

Definition retrieve_Z : disk Z -> ndarray Z -> Z -> result (list doc) :=
  retrieve_documents Z 0%Z Z.add Z.mul Z.ltb.

Definition corpus_documents : list doc :=
  [Doc text_a (lit "a.md"); Doc text_b (lit "b.md"); Doc text_c (lit "c.md")].

Definition broken_walk : list walked :=
  sample_walk ++ [Walked (lit "latin1.md") (lit "latin1.md") Undecodable].

(** ** Loops that append *)

(** A loop that appends what each element contributes. *)
Definition appending {A B} (f : A -> result (list B))
  : list B -> A -> result (list B) :=
  fun acc x => do cs <- f x; Ok (acc ++ cs).

(** * Facts about the Python primitives *)

Section PyFacts.

Lemma flush_words cur ws :
  nospace cur -> Forall is_word ws -> Forall is_word (flush cur ws).
Proof.
  intros Hc Hw. destruct cur as [|c cur]; simpl; [done|].
  constructor; [|done]. split.
  - intros E. apply (f_equal length) in E. rewrite length_app in E. simpl in E. lia.
  - unfold nospace in *. apply Forall_app. split.
    + apply Forall_rev. by inversion Hc.
    + constructor; [by inversion Hc | constructor].
Qed.

Lemma split_from_words s : forall cur,
  nospace cur -> Forall is_word (Py.split_from cur s).
Proof.
  induction s as [|c t IH]; intros cur Hc; simpl.
  - apply flush_words; [done | constructor].
  - destruct (isspace c) eqn:E.
    + apply flush_words; [done|]. apply IH. constructor.
    + apply IH. by constructor.
Qed.

Lemma split_words s : Forall is_word (Py.split s).
Proof. apply split_from_words. constructor. Qed.

Lemma split_from_nospace w : forall cur rest,
  nospace w ->
  Py.split_from cur (w ++ rest) = Py.split_from (rev w ++ cur) rest.
Proof.
  induction w as [|c w IH]; intros cur rest Hw; simpl; [done|].
  inversion Hw as [|? ? Hc Hw']; subst. rewrite Hc.
  rewrite IH by done. by rewrite <- app_assoc.
Qed.

Lemma flush_rev w ws : w <> [] -> flush (rev w) ws = w :: ws.
Proof.
  intros Hne. unfold flush. destruct (rev w) as [|c l] eqn:E.
  - apply (f_equal (@rev _)) in E. rewrite rev_involutive in E. done.
  - rewrite <- E. by rewrite rev_involutive.
Qed.

Lemma split_word w : is_word w -> Py.split w = [w].
Proof.
  intros [Hne Hw]. unfold Py.split.
  rewrite <- (app_nil_r w) at 1. rewrite split_from_nospace by done.
  rewrite app_nil_r. cbn [Py.split_from]. by apply flush_rev.
Qed.

Lemma split_join ws :
  Forall is_word ws -> Py.split (join [SPACE] ws) = ws.
Proof.
  induction ws as [|w ws IH]; intros H; [done|].
  inversion H as [|? ? Hw Hws]; subst.
  destruct ws as [|w' ws'].
  - simpl. by apply split_word.
  - change (join [SPACE] (w :: w' :: ws'))
      with (w ++ SPACE :: join [SPACE] (w' :: ws')).
    unfold Py.split. destruct Hw as [Hne Hw].
    rewrite split_from_nospace by done. rewrite app_nil_r.
    cbn [Py.split_from]. change (isspace SPACE) with true. cbv iota.
    fold (Py.split (join [SPACE] (w' :: ws'))). rewrite IH by done.
    by apply flush_rev.
Qed.

End PyFacts.

(** * Facts about the chunker *)

Section ChunkerFacts.

Lemma range_pos n w :
  (0 < w)%Z ->
  range 0 n w
  = Some (List.map (fun i => Z.of_nat i * w)%Z
                   (seq 0 (Z.to_nat ((n + w - 1) / w)))).
Proof.
  intros Hw. unfold range.
  destruct (Z.eqb_spec w 0) as [->|_]; [lia|].
  destruct (Z.ltb_spec 0 w) as [_|]; [|lia].
  repeat f_equal. lia.
Qed.

Lemma range_neg n w :
  (0 <= n)%Z -> (w < 0)%Z -> range 0 n w = Some [].
Proof.
  intros Hn Hw. unfold range.
  destruct (Z.eqb_spec w 0) as [->|_]; [lia|].
  destruct (Z.ltb_spec 0 w) as [|_]; [lia|].
  replace (Z.to_nat ((0 - n - w - 1) / - w)) with 0%nat; [done|].
  assert ((0 - n - w - 1) / - w <= 0)%Z; [|lia].
  assert (0 - n - w - 1 < - w)%Z by lia.
  destruct (Z.le_gt_cases 0 (0 - n - w - 1)) as [Hle|Hgt].
  - rewrite Z.div_small; lia.
  - apply Z.lt_le_incl. apply Z.div_lt_upper_bound; lia.
Qed.

Lemma concat_take_drop {A} (l : list A) c j :
  concat (List.map (fun i => take c (drop (i * c) l)) (seq 0 j))
  = take (j * c) l.
Proof.
  induction j as [|j IH]; [done|].
  rewrite seq_S, List.map_app, concat_app, IH. simpl.
  rewrite app_nil_r, take_take_drop. f_equal. lia.
Qed.

Lemma windows_pos w (words : list str) :
  (0 < w)%Z ->
  windows w words
  = List.map (fun i => take (Z.to_nat w) (drop (i * Z.to_nat w) words))
      (seq 0 (Z.to_nat ((Z.of_nat (length words) + w - 1) / w))).
Proof.
  intros Hw. unfold windows. rewrite range_pos by done. simpl.
  rewrite List.map_map. apply List.map_ext. intros i. unfold slice.
  f_equal; [f_equal; lia | f_equal; lia].
Qed.

Lemma windows_concat w (words : list str) :
  (1 <= w)%Z -> concat (windows w words) = words.
Proof.
  intros Hw. rewrite windows_pos by lia. rewrite concat_take_drop.
  apply take_ge.
  set (n := Z.of_nat (length words)).
  assert (n <= (n + w - 1) / w * w)%Z.
  { pose proof (Z.div_mod (n + w - 1) w ltac:(lia)) as E.
    pose proof (Z.mod_pos_bound (n + w - 1) w ltac:(lia)). lia. }
  assert (0 <= (n + w - 1) / w)%Z by (apply Z.div_pos; lia).
  nia.
Qed.

Lemma windows_bound w (words : list str) :
  (1 <= w)%Z ->
  Forall (fun win => (Z.of_nat (length win) <= w)%Z) (windows w words).
Proof.
  intros Hw. rewrite windows_pos by lia. apply Forall_forall.
  intros win Hin. apply list_elem_of_In, in_map_iff in Hin as (i & <- & _).
  rewrite length_take. lia.
Qed.

Lemma windows_words w (words : list str) :
  Forall is_word words -> Forall (Forall is_word) (windows w words).
Proof.
  intros H. unfold windows. apply Forall_forall. intros win Hin.
  apply list_elem_of_In, in_map_iff in Hin as (i & <- & _).
  unfold slice. by apply Forall_take, Forall_drop.
Qed.

Lemma section_candidates_ok w section :
  w <> 0%Z ->
  section_candidates w section
  = Ok (List.map (join [SPACE]) (windows w (Py.split section))).
Proof.
  intros Hw. unfold section_candidates, windows.
  destruct (range 0 _ w) as [starts|] eqn:E.
  - cbn [default]. rewrite (List.map_map _ (join [SPACE])). reflexivity.
  - unfold range in E. destruct (Z.eqb_spec w 0); done.
Qed.

Lemma section_candidates_zero section :
  section_candidates 0 section = Raise ValueError.
Proof. reflexivity. Qed.

Lemma for_each_concat {A B} (f : A -> result (list B)) g (l : list A) :
  (forall x, In x l -> f x = Ok (g x)) ->
  forall acc,
    for_each (fun acc x => do cs <- f x; Ok (acc ++ cs)) l acc
    = Ok (acc ++ concat (List.map g l)).
Proof.
  induction l as [|x l IH]; intros Hf acc; simpl.
  - by rewrite app_nil_r.
  - rewrite (Hf x) by (by left). simpl.
    rewrite IH by (intros; apply Hf; by right).
    by rewrite <- app_assoc.
Qed.

Lemma for_each_raise {A B} (f : A -> result (list B)) e x (l : list A) :
  f x = Raise e ->
  forall acc,
    for_each (fun acc x => do cs <- f x; Ok (acc ++ cs)) (x :: l) acc
    = Raise e.
Proof. intros Hf acc. simpl. by rewrite Hf. Qed.

Lemma re_split_from_cons m s : forall skip cur,
  exists p ps, Re.split_from m skip cur s = p :: ps.
Proof.
  induction s as [|c t IH]; intros skip cur; simpl; [eauto|].
  destruct skip as [|k]; [|apply IH].
  destruct (m (c :: t)) as [[|k]|]; try apply IH. eauto.
Qed.

Lemma sections_of_cons text : exists p ps, sections_of text = p :: ps.
Proof. apply re_split_from_cons. Qed.

Lemma all_candidates_ok text w :
  w <> 0%Z ->
  all_candidates text w
  = Ok (concat (List.map (candidates_of w) (sections_of text))).
Proof.
  intros Hw. unfold all_candidates.
  rewrite (for_each_concat _ (candidates_of w)); [done|].
  intros x _. by apply section_candidates_ok.
Qed.

Lemma split_into_chunks_ok text w :
  w <> 0%Z ->
  split_into_chunks text w
  = Ok (concat (List.map (fun sec => List.filter keep (candidates_of w sec))
                         (sections_of text))).
Proof.
  intros Hw. unfold split_into_chunks.
  rewrite (for_each_concat _
             (fun sec => List.filter keep (candidates_of w sec))); [done|].
  intros x _. unfold section_chunks.
  by rewrite section_candidates_ok.
Qed.

Lemma split_into_chunks_zero text :
  split_into_chunks text 0 = Raise ValueError.
Proof.
  unfold split_into_chunks.
  destruct (sections_of_cons text) as (p & ps & ->). reflexivity.
Qed.

Lemma all_candidates_zero text :
  all_candidates text 0 = Raise ValueError.
Proof.
  unfold all_candidates.
  destruct (sections_of_cons text) as (p & ps & ->). reflexivity.
Qed.

Lemma candidate_words w section :
  List.map Py.split (candidates_of w section) = windows w (Py.split section).
Proof.
  unfold candidates_of. rewrite List.map_map.
  pose proof (windows_words w _ (split_words section)) as H.
  induction H as [|win wins Hwin _ IH]; [done|].
  simpl. by rewrite split_join, IH.
Qed.

End ChunkerFacts.

(** * The chunker: bound, order and minimum length *)

Section ChunkerClaims.

Lemma candidates_of_elem w section c :
  In c (candidates_of w section) ->
  exists win, In win (windows w (Py.split section))
              /\ c = join [SPACE] win /\ Py.split c = win.
Proof.
  unfold candidates_of. intros Hin.
  apply in_map_iff in Hin as (win & <- & Hin).
  exists win. repeat split; [done|]. apply split_join.
  pose proof (windows_words w _ (split_words section)) as H.
  rewrite Forall_forall in H. apply H. by apply list_elem_of_In.
Qed.

Lemma keep_spec c : keep c = true <-> 50 < length (strip c).
Proof. unfold keep. apply Nat.ltb_lt. Qed.

Lemma for_each_inv {A S} (P : S -> Prop) (body : S -> A -> result S) l :
  (forall s x s', P s -> In x l -> body s x = Ok s' -> P s') ->
  forall acc r, P acc -> for_each body l acc = Ok r -> P r.
Proof.
  induction l as [|x l IH]; intros Hb acc r Hacc H; simpl in H.
  - by inversion H; subst.
  - destruct (body acc x) as [acc'|e] eqn:E; simpl in H; [|done].
    apply (IH (fun s y s' Hs Hy => Hb s y s' Hs (or_intror Hy)) acc' r);
      [|done].
    apply (Hb acc x acc'); [done | by left | done].
Qed.

Lemma split_into_chunks_kept text w chunks :
  split_into_chunks text w = Ok chunks ->
  Forall (fun c => 50 < length (strip c)) chunks.
Proof.
  intros H. destruct (Z.eq_dec w 0%Z) as [->|Hw].
  - by rewrite split_into_chunks_zero in H.
  - rewrite split_into_chunks_ok in H by done. inversion H; subst.
    apply List.Forall_concat, Forall_forall. intros l Hl.
    apply list_elem_of_In, in_map_iff in Hl as (sec & <- & _).
    apply Forall_forall. intros c Hc.
    apply list_elem_of_In, filter_In in Hc as [_ Hc]. by apply keep_spec.
Qed.

(** C6.  Chunk bound: for every text and every [max_words = w >= 1], the
    chunker returns, and each chunk it returns has at most [w] words. *)
Theorem chunk_bound (text : str) (w : Z) (Hw : (1 <= w)%Z) :
  exists chunks,
    split_into_chunks text w = Ok chunks
    /\ Forall (fun c => (Z.of_nat (length (Py.split c)) <= w)%Z) chunks.
Proof.
  rewrite split_into_chunks_ok by lia. eexists. split; [reflexivity|].
  apply List.Forall_concat, Forall_forall. intros l Hl.
  apply list_elem_of_In, in_map_iff in Hl as (sec & <- & _).
  apply Forall_forall. intros c Hc.
  apply list_elem_of_In, filter_In in Hc as [Hc _].
  apply candidates_of_elem in Hc as (win & Hwin & _ & ->).
  pose proof (windows_bound w (Py.split sec) Hw) as Hb.
  rewrite Forall_forall in Hb. apply Hb. by apply list_elem_of_In.
Qed.

Lemma chunk_bound_witness :
  (1 <= 6)%Z
  /\ split_into_chunks two_chunk_text 6 = Ok [sample_text; last_chunk_text]
  /\ List.map (fun c => length (Py.split c)) [sample_text; last_chunk_text]
     = [6; 5]
  /\ exists chunks,
       split_into_chunks two_chunk_text 6 = Ok chunks
       /\ Forall (fun c => (Z.of_nat (length (Py.split c)) <= 6)%Z) chunks.
Proof.
  split; [lia|]. split; [vm_compute; reflexivity|].
  split; [vm_compute; reflexivity|].
  apply (chunk_bound two_chunk_text 6); lia.
Defined.

(** C7.  Minimum length: every chunk the chunker returns has a trimmed
    length above 50 characters; the chunks are exactly the candidate
    windows that pass this test, so a candidate of trimmed length at most
    50 is never returned; and every chunk of an ingested corpus has a
    trimmed length above 50. *)
Theorem minimum_length_invariant
  (txt : str) (w : Z) (chunks : list str)
  (walk : list walked) (documents : list doc)
  (Hchunks : split_into_chunks txt w = Ok chunks)
  (Hdocs : ingest_raw_documents walk = Ok documents) :
  Forall (fun c => 50 < length (strip c)) chunks
  /\ (exists cands,
        all_candidates txt w = Ok cands
        /\ chunks = List.filter keep cands
        /\ forall c, In c cands -> length (strip c) <= 50 -> ~ In c chunks)
  /\ Forall (fun d => 50 < length (strip (text d))) documents.
Proof.
  split; [by eapply split_into_chunks_kept|]. split.
  - destruct (Z.eq_dec w 0%Z) as [->|Hw].
    { by rewrite split_into_chunks_zero in Hchunks. }
    rewrite split_into_chunks_ok in Hchunks by done.
    inversion Hchunks; subst. rewrite all_candidates_ok by done.
    eexists. split; [reflexivity|]. rewrite <- concat_filter_map.
    rewrite List.map_map. split; [reflexivity|].
    intros c _ Hlen Hin. rewrite <- (List.map_map (candidates_of w)) in Hin.
    rewrite concat_filter_map in Hin. apply filter_In in Hin as [_ Hk].
    apply keep_spec in Hk. lia.
  - revert Hdocs. unfold ingest_raw_documents.
    apply (for_each_inv
             (fun ds => Forall (fun d => 50 < length (strip (text d))) ds));
      [|constructor].
    intros ds f ds' Hds _ Hbody.
    destruct (negb (endswith (filename f) (lit ".md"))).
    { by inversion Hbody; subst. }
    destruct (read_markdown_file f) as [raw|e]; simpl in Hbody; [|done].
    destruct (split_into_chunks (clean_markdown_text raw) Config.CHUNK_SIZE)
      as [cs|e] eqn:E; simpl in Hbody; [|done].
    inversion Hbody; subst. apply Forall_app. split; [done|].
    apply split_into_chunks_kept in E. apply Forall_forall.
    intros d Hd. apply list_elem_of_In, in_map_iff in Hd as (c & <- & Hc).
    simpl. rewrite Forall_forall in E. apply E. by apply list_elem_of_In.
Qed.

Lemma minimum_length_invariant_witness :
  split_into_chunks sample_text 6 = Ok [sample_text]
  /\ ingest_raw_documents sample_walk
     = Ok [Doc sample_text (lit "api/guide.md")]
  /\ Forall (fun c => 50 < length (strip c)) [sample_text]
  /\ (exists cands,
        all_candidates sample_text 6 = Ok cands
        /\ [sample_text] = List.filter keep cands
        /\ forall c, In c cands -> length (strip c) <= 50
                     -> ~ In c [sample_text])
  /\ Forall (fun d => 50 < length (strip (text d)))
            [Doc sample_text (lit "api/guide.md")].
Proof.
  split; [vm_compute; reflexivity|]. split; [vm_compute; reflexivity|].
  apply (minimum_length_invariant sample_text 6 [sample_text] sample_walk
           [Doc sample_text (lit "api/guide.md")]);
    vm_compute; reflexivity.
Defined.

(** C3 as stated fails: the section [hello world] has two words, and the
    chunker emits no chunk from it, its only window being at most 50
    characters long. *)
Lemma chunk_order_counterexample :
  sections_of (lit "hello world") = [lit "hello world"]
  /\ Py.split (lit "hello world") = [lit "hello"; lit "world"]
  /\ section_chunks 500 (lit "hello world") = Ok []
  /\ concat (List.map Py.split []) <> Py.split (lit "hello world").
Proof. vm_compute. repeat split; discriminate. Qed.

(** C3, amended.  For every section and every [max_words = w >= 1], the
    candidate windows of the section, concatenated, are the section's
    word sequence in order, nothing dropped and nothing repeated; the
    chunks emitted are the candidates of trimmed length above 50, in
    order; so when no candidate is discarded the emitted chunks
    reconstruct the word sequence. *)
Theorem chunk_order_preservation (section : str) (w : Z) (Hw : (1 <= w)%Z) :
  exists cands,
    section_candidates w section = Ok cands
    /\ concat (List.map Py.split cands) = Py.split section
    /\ section_chunks w section = Ok (List.filter keep cands)
    /\ (forallb keep cands = true ->
        exists chunks,
          section_chunks w section = Ok chunks
          /\ concat (List.map Py.split chunks) = Py.split section).
Proof.
  exists (candidates_of w section).
  assert (Hc : section_candidates w section = Ok (candidates_of w section)).
  { apply section_candidates_ok. lia. }
  assert (Hr : concat (List.map Py.split (candidates_of w section))
               = Py.split section).
  { rewrite candidate_words. by apply windows_concat. }
  assert (Hs : section_chunks w section
               = Ok (List.filter keep (candidates_of w section))).
  { unfold section_chunks. by rewrite Hc. }
  repeat split; [done..|].
  intros Hall. exists (candidates_of w section). split; [|done].
  rewrite Hs. by rewrite forallb_filter_id.
Qed.

Lemma chunk_order_preservation_witness :
  (1 <= 4)%Z
  /\ exists cands,
       section_candidates 4 sample_text = Ok cands
       /\ concat (List.map Py.split cands) = Py.split sample_text
       /\ section_chunks 4 sample_text = Ok (List.filter keep cands)
       /\ (forallb keep cands = true ->
           exists chunks,
             section_chunks 4 sample_text = Ok chunks
             /\ concat (List.map Py.split chunks) = Py.split sample_text).
Proof. split; [lia | apply (chunk_order_preservation sample_text 4); lia]. Defined.

End ChunkerClaims.

(** * The index build *)

Section BuildClaims.

Context {F : Type} (embed : str -> list F).

(** C8.  When ingestion yields no document chunk, the build raises its
    configuration error ([RuntimeError]) and leaves the disk as it was:
    no directory is made and none of the three artifacts is written. *)
Theorem build_index_empty_corpus_aborts
  (walk : list walked) (σ : disk F)
  (Hempty : ingest_raw_documents walk = Ok []) :
  build_index F embed walk σ = (Raise RuntimeError, σ).
Proof. unfold build_index. by rewrite Hempty. Qed.

Lemma shape1_encode (texts : list str) :
  texts <> [] -> exists d, shape1 (encode F embed texts) = Ok d.
Proof. destruct texts as [|t ts]; [done|]. simpl. eauto. Qed.

(** C9.  Row order: when ingestion yields a corpus of [n >= 1] chunks,
    the build succeeds and leaves on disk an embedding matrix of exactly
    [n] rows whose row [i] is the embedding of the text of corpus entry
    [i], the corpus itself in that same order, and an index holding the
    same rows in the same order. *)
Theorem build_index_row_order
  (walk : list walked) (σ : disk F) (first : doc) (others : list doc)
  (Hdocs : ingest_raw_documents walk = Ok (first :: others)) :
  let documents := first :: others in
  exists σ' rows d,
    build_index F embed walk σ = (Ok tt, σ')
    /\ files σ' !! Config.EMBEDDINGS_PATH = Some (Npy rows)
    /\ files σ' !! Config.DOCS_PATH = Some (Pickle documents)
    /\ files σ' !! Config.INDEX_PATH = Some (FaissIndex (IndexFlatIP d rows))
    /\ length rows = length documents
    /\ forall i entry,
         documents !! i = Some entry -> rows !! i = Some (embed (text entry)).
Proof.
  intros documents. unfold build_index. rewrite Hdocs.
  fold documents.
  destruct (shape1_encode (List.map text documents)) as [d Hd]; [done|].
  change (first :: others) with documents. rewrite Hd.
  eexists _, (encode F embed (List.map text documents)), d.
  split; [reflexivity|]. cbn [files write_file makedirs].
  split; [by rewrite lookup_insert_ne, lookup_insert_ne, lookup_insert_eq|].
  split; [by rewrite lookup_insert_ne, lookup_insert_eq|].
  split; [by rewrite lookup_insert_eq|].
  unfold encode. split; [by rewrite !length_map|].
  intros i entry Hi. rewrite !list_lookup_fmap, Hi. reflexivity.
Qed.

End BuildClaims.

Lemma build_index_empty_corpus_aborts_witness :
  ingest_raw_documents short_walk = Ok []
  /\ build_index Z sample_embed short_walk empty_disk
     = (Raise RuntimeError, empty_disk).
Proof.
  split; [vm_compute; reflexivity|].
  apply (build_index_empty_corpus_aborts sample_embed short_walk empty_disk).
  vm_compute; reflexivity.
Defined.

Lemma build_index_row_order_witness :
  ingest_raw_documents corpus_walk = Ok corpus_documents
  /\ files (build_index Z sample_embed corpus_walk used_disk).2
       !! Config.EMBEDDINGS_PATH
     = Some (Npy [[59; 1]; [65; 1]; [55; 1]]%Z)
  /\ exists σ' rows d,
       build_index Z sample_embed corpus_walk used_disk = (Ok tt, σ')
       /\ files σ' !! Config.EMBEDDINGS_PATH = Some (Npy rows)
       /\ files σ' !! Config.DOCS_PATH = Some (Pickle corpus_documents)
       /\ files σ' !! Config.INDEX_PATH
          = Some (FaissIndex (IndexFlatIP d rows))
       /\ length rows = length corpus_documents
       /\ forall i entry,
            corpus_documents !! i = Some entry ->
            rows !! i = Some (sample_embed (text entry)).
Proof.
  split; [vm_compute; reflexivity|]. split; [vm_compute; reflexivity|].
  apply (build_index_row_order sample_embed corpus_walk used_disk
           (Doc text_a (lit "a.md"))
           [Doc text_b (lit "b.md"); Doc text_c (lit "c.md")]).
  vm_compute; reflexivity.
Defined.

(** * Retrieval *)

Section RetrievalClaims.

Context {F : Type} (Fzero : F) (Fadd Fmul : F -> F -> F)
        (Fltb : F -> F -> bool).

Local Abbreviation retrieve := (retrieve_documents F Fzero Fadd Fmul Fltb).
Local Abbreviation labels := (search_labels F Fzero Fadd Fmul Fltb).

Lemma retrieve_unfold (σ : disk F) d q rest k ix documents :
  load_faiss_index σ = Ok (ix, documents) ->
  d = ix_d ix -> (0 < k)%Z ->
  retrieve σ (Array2 d (q :: rest)) k
  = collect documents (labels ix q (Z.to_nat k)) [].
Proof.
  intros Hload -> Hk. unfold retrieve_documents. rewrite Hload.
  cbn [bind]. unfold index_search.
  rewrite Nat.eqb_refl. cbn [negb].
  destruct (Z.ltb_spec 0 k) as [_|]; [|lia]. reflexivity.
Qed.

(** The loop over one row of labels gives [documents[label]] for each
    label, in order, and raises [IndexError] at a label out of range. *)
Lemma collect_mapM documents row : forall acc,
  collect documents row acc
  = match mapM (Py.index documents) row with
    | Some entries => Ok (acc ++ entries)
    | None => Raise IndexError
    end.
Proof.
  unfold collect. induction row as [|i row IH]; intros acc.
  - simpl. by rewrite app_nil_r.
  - csimpl. unfold getitem at 1. destruct (Py.index documents i) as [d|]; [|done].
    csimpl. rewrite IH. destruct (mapM (Py.index documents) row); csimpl; [|done].
    by rewrite <- app_assoc.
Qed.

(** C10.  A batch of query vectors: the results are those of the first
    row alone.  The rows after the first have no effect on what comes
    back; the search does give a row of labels for each of them, and
    what comes back is, in order, [documents[label]] for the labels of
    the first row only ([IndexError] if one of them is out of range). *)
Theorem retrieve_batch_first_row_only
  (σ : disk F) (d : nat) (q : list F) (rest : list (list F)) (top_k : Z) :
  retrieve σ (Array2 d (q :: rest)) top_k = retrieve σ (Array2 d [q]) top_k
  /\ forall ix documents,
       load_faiss_index σ = Ok (ix, documents) ->
       d = ix_d ix ->
       (1 <= top_k)%Z ->
       index_search F Fzero Fadd Fmul Fltb ix (Array2 d (q :: rest)) top_k
       = Ok (labels ix q (Z.to_nat top_k)
             :: List.map (fun r => labels ix r (Z.to_nat top_k)) rest)
       /\ retrieve σ (Array2 d (q :: rest)) top_k
          = match mapM (Py.index documents)
                    (labels ix q (Z.to_nat top_k)) with
            | Some entries => Ok entries
            | None => Raise IndexError
            end.
Proof.
  split.
  - unfold retrieve_documents.
    destruct (load_faiss_index σ) as [[ix documents]|e]; [|done].
    cbn [bind]. unfold index_search.
    destruct (negb (d =? ix_d ix)); [done|].
    destruct (negb (0 <? top_k)%Z); done.
  - intros ix documents Hload Hd Hk. split.
    + unfold index_search. subst d. rewrite Nat.eqb_refl. cbn [negb].
      destruct (Z.ltb_spec 0 top_k) as [_|?]; [done|lia].
    + rewrite (retrieve_unfold _ _ _ _ _ ix documents) by (done || lia).
      apply collect_mapM.
Qed.

Lemma search_labels_length ix q k : length (labels ix q k) = k.
Proof.
  unfold search_labels. rewrite length_app, length_map, length_replicate.
  rewrite length_take. lia.
Qed.

Lemma collect_length documents row : forall acc results,
  collect documents row acc = Ok results ->
  length results = length acc + length row.
Proof.
  unfold collect. induction row as [|i row IH]; intros acc results H.
  - simpl in H. inversion H; subst. simpl. lia.
  - simpl in H. destruct (getitem documents i) as [d|e]; [|done].
    simpl in H. apply IH in H. rewrite length_app in H. simpl in *. lia.
Qed.

Lemma getitem_nil {A} (i : Z) : getitem (@nil A) i = Raise IndexError.
Proof.
  unfold getitem, Py.index. cbn [length].
  destruct (0 <=? i)%Z; [reflexivity|].
  destruct (- Z.of_nat 0 <=? i)%Z; reflexivity.
Qed.

(** Whatever the corpus, a successful retrieval has [top_k] entries. *)
Lemma retrieve_length
  (σ : disk F) d q rest k ix documents results :
  load_faiss_index σ = Ok (ix, documents) ->
  d = ix_d ix -> (0 < k)%Z ->
  retrieve σ (Array2 d (q :: rest)) k = Ok results ->
  length results = Z.to_nat k.
Proof.
  intros Hload Hd Hk H. rewrite (retrieve_unfold _ _ _ _ _ ix documents) in H
    by done.
  apply collect_length in H. by rewrite search_labels_length in H.
Qed.

(** With no chunk in the corpus, retrieval raises for every [top_k >= 1]. *)
Lemma retrieve_empty_raises
  (σ : disk F) d q rest k ix :
  load_faiss_index σ = Ok (ix, []) ->
  d = ix_d ix -> (0 < k)%Z ->
  retrieve σ (Array2 d (q :: rest)) k = Raise IndexError.
Proof.
  intros Hload Hd Hk. rewrite (retrieve_unfold _ _ _ _ _ ix []) by done.
  pose proof (search_labels_length ix q (Z.to_nat k)) as Hlen.
  destruct (labels ix q (Z.to_nat k)) as [|i row]; [simpl in Hlen; lia|].
  unfold collect. simpl. by rewrite getitem_nil.
Qed.

Lemma insert_desc_In e x l :
  In x (insert_desc F Fltb e l) <-> x = e \/ In x l.
Proof.
  induction l as [|h t IH]; simpl; [intuition (subst; auto)|].
  destruct (Fltb (snd e) (snd h)); simpl; [rewrite IH|];
    intuition (subst; auto).
Qed.

Lemma rank_desc_In x l : In x (rank_desc F Fltb l) <-> In x l.
Proof.
  induction l as [|h t IH]; simpl; [done|].
  rewrite insert_desc_In, IH. intuition (subst; auto).
Qed.

(** Every label is a row of the index or the padding label [-1]. *)
Lemma search_labels_range ix q k :
  Forall (fun i => (-1 <= i < Z.of_nat (length (ix_xb ix)))%Z) (labels ix q k).
Proof.
  unfold search_labels. apply Forall_app. split.
  - apply Forall_forall. intros i Hi.
    apply list_elem_of_In, in_map_iff in Hi as ([j sc] & <- & Hj).
    apply list_elem_of_In, (elem_of_take _ k) in Hj as (pos & Hj & _).
    apply list_elem_of_lookup_2, list_elem_of_In in Hj.
    apply (proj1 (rank_desc_In _ _)) in Hj.
    apply list_elem_of_In, list_elem_of_lookup in Hj as [pos' Hj].
    rewrite list_lookup_imap in Hj.
    destruct (ix_xb ix !! pos') as [x|] eqn:E; [|done]. simpl in Hj.
    inversion Hj; subst. apply lookup_lt_Some in E. simpl. lia.
  - apply Forall_forall. intros i Hi.
    apply elem_of_replicate in Hi as [-> Hk]. destruct (ix_xb ix); [|simpl; lia].
    simpl in Hk. rewrite take_nil in Hk. simpl in Hk. simpl.
    unfold rank_desc in Hk. simpl in Hk. lia.
Qed.

Lemma getitem_in_range {A} (l : list A) (i : Z) :
  (- Z.of_nat (length l) <= i < Z.of_nat (length l))%Z ->
  exists a, getitem l i = Ok a.
Proof.
  intros Hi. unfold getitem, Py.index.
  destruct (Z.leb_spec 0 i).
  - destruct (lookup_lt_is_Some_2 l (Z.to_nat i) ltac:(lia)) as [a ->]. eauto.
  - destruct (Z.leb_spec (- Z.of_nat (length l)) i); [|lia].
    destruct (lookup_lt_is_Some_2 l (Z.to_nat (Z.of_nat (length l) + i))
                ltac:(lia)) as [a ->]. eauto.
Qed.

Lemma collect_total documents row :
  Forall (fun i => (- Z.of_nat (length documents) <= i
                    < Z.of_nat (length documents))%Z) row ->
  forall acc, exists results, collect documents row acc = Ok results.
Proof.
  unfold collect. induction 1 as [|i row Hi _ IH]; intros acc; simpl; [eauto|].
  destruct (getitem_in_range documents i Hi) as [a ->]. simpl. apply IH.
Qed.

(** On a corpus that is not empty, retrieval returns, and what it returns
    has [top_k] entries, however few chunks the corpus holds. *)
Lemma retrieve_returns_top_k
  (σ : disk F) d q rest k ix documents :
  load_faiss_index σ = Ok (ix, documents) ->
  length (ix_xb ix) = length documents -> documents <> [] ->
  d = ix_d ix -> (0 < k)%Z ->
  exists results,
    retrieve σ (Array2 d (q :: rest)) k = Ok results
    /\ length results = Z.to_nat k.
Proof.
  intros Hload Hlen Hne Hd Hk.
  assert (Hrange :
    Forall (fun i => (- Z.of_nat (length documents) <= i
                      < Z.of_nat (length documents))%Z)
           (labels ix q (Z.to_nat k))).
  { eapply Forall_impl; [apply search_labels_range|].
    intros i Hi. cbv beta in Hi. rewrite Hlen in Hi.
    destruct documents; [done|]. simpl in *. lia. }
  destruct (collect_total documents _ Hrange []) as [results Hr].
  exists results. rewrite (retrieve_unfold _ _ _ _ _ ix documents) by done.
  split; [done|]. apply collect_length in Hr.
  by rewrite search_labels_length in Hr.
Qed.

End RetrievalClaims.

(** On the corpus of three chunks the second row of the batch would rank
    the chunks the other way round; what comes back follows the first
    row. *)
Lemma retrieve_batch_first_row_only_witness :
  retrieve_Z corpus_disk (Array2 2 [[1; 0]; [-1; 0]]%Z) 2
  = Ok [Doc text_b (lit "b.md"); Doc text_a (lit "a.md")]
  /\ retrieve_Z corpus_disk (Array2 2 [[-1; 0]]%Z) 2
     = Ok [Doc text_c (lit "c.md"); Doc text_a (lit "a.md")]
  /\ search_labels Z 0%Z Z.add Z.mul Z.ltb corpus_index [1; 0]%Z 2 = [1; 0]%Z
  /\ search_labels Z 0%Z Z.add Z.mul Z.ltb corpus_index [-1; 0]%Z 2
     = [2; 0]%Z
  /\ index_search Z 0%Z Z.add Z.mul Z.ltb corpus_index
       (Array2 2 [[1; 0]; [-1; 0]]%Z) 2
     = Ok (search_labels Z 0%Z Z.add Z.mul Z.ltb corpus_index [1; 0]%Z
             (Z.to_nat 2)
           :: List.map (fun r => search_labels Z 0%Z Z.add Z.mul Z.ltb
                                   corpus_index r (Z.to_nat 2))
                       [[-1; 0]%Z])
  /\ retrieve_Z corpus_disk (Array2 2 [[1; 0]; [-1; 0]]%Z) 2
     = match mapM (Py.index corpus_documents)
               (search_labels Z 0%Z Z.add Z.mul Z.ltb corpus_index [1; 0]%Z
                  (Z.to_nat 2)) with
       | Some entries => Ok entries
       | None => Raise IndexError
       end.
Proof.
  split; [vm_compute; reflexivity|]. split; [vm_compute; reflexivity|].
  split; [vm_compute; reflexivity|]. split; [vm_compute; reflexivity|].
  apply (proj2 (retrieve_batch_first_row_only 0%Z Z.add Z.mul Z.ltb
                  corpus_disk 2 [1; 0]%Z [[-1; 0]%Z] 2)
           corpus_index corpus_documents).
  - vm_compute; reflexivity.
  - reflexivity.
  - lia.
Defined.

(** * Retrieval beyond the corpus, evaluated *)

(** C1, the code at [top_k = 5] on a corpus of 3 chunks: 5 entries come
    back, not 3; the two entries past the corpus are [documents[-1]], the
    last chunk of the corpus, once more each. *)
Theorem retrieve_pads_with_last_document :
  fst (build_index Z sample_embed corpus_walk empty_disk) = Ok tt
  /\ load_faiss_index corpus_disk
     = Ok (IndexFlatIP 2 [[59; 1]; [65; 1]; [55; 1]]%Z,
           [Doc text_a (lit "a.md"); Doc text_b (lit "b.md");
            Doc text_c (lit "c.md")])
  /\ search_labels Z 0%Z Z.add Z.mul Z.ltb
       (IndexFlatIP 2 [[59; 1]; [65; 1]; [55; 1]]%Z) [1; 0]%Z 5
     = [1; 0; 2; -1; -1]%Z
  /\ retrieve_Z corpus_disk (Array1 [1; 0]%Z) 5
     = Ok [Doc text_b (lit "b.md"); Doc text_a (lit "a.md");
           Doc text_c (lit "c.md"); Doc text_c (lit "c.md");
           Doc text_c (lit "c.md")].
Proof. vm_compute. repeat split; reflexivity. Qed.


(** * Facts about [re.split] *)

Section ReSplitFacts.

Variable m : Re.matcher.

(** A match lies within the text and is decided by the characters it
    covers. *)
Hypothesis m_bounded : forall s n, m s = Some n -> n <= length s.
Hypothesis m_prefix : forall s n r, m s = Some (S n) -> m (s ++ r) = Some (S n).
Hypothesis m_exact : forall s n, m s = Some (S n) -> m (take (S n) s) = Some (S n).

Lemma search_false_iff s :
  Re.search m s = false <-> forall i, i < length s -> no_match_at m (drop i s).
Proof.
  induction s as [|c t IH]; simpl.
  - split; [intros _ i Hi; lia | done].
  - split.
    + intros H i Hi. destruct i as [|i].
      * unfold no_match_at. simpl. destruct (m (c :: t)) as [[|k]|]; done.
      * simpl. destruct (m (c :: t)) as [[|k]|]; try done;
          apply IH; (done || lia).
    + intros H. pose proof (H 0 ltac:(lia)) as H0.
      unfold no_match_at in H0. simpl in H0.
      assert (Re.search m t = false) as Ht.
      { apply IH. intros i Hi. apply (H (S i)). lia. }
      destruct (m (c :: t)) as [[|k]|]; done.
Qed.

Lemma split_from_interleave s : forall skip cur,
  skip <= length s ->
  exists seps,
    length (Re.split_from m skip cur s) = S (length seps)
    /\ Forall (fun sep => m sep = Some (length sep)) seps
    /\ interleave (Re.split_from m skip cur s) seps = rev cur ++ drop skip s.
Proof.
  induction s as [|c t IH]; intros skip cur Hskip.
  - exists []. simpl. rewrite drop_nil, app_nil_r. done.
  - destruct skip as [|k].
    + cbn [Re.split_from]. destruct (m (c :: t)) as [[|k]|] eqn:E.
      * destruct (IH 0 (c :: cur) ltac:(lia)) as (seps & H1 & H2 & H3).
        exists seps. rewrite H3. simpl. by rewrite <- app_assoc.
      * pose proof (m_bounded _ _ E) as Hb. simpl in Hb.
        destruct (IH k [] ltac:(lia)) as (seps & H1 & H2 & H3).
        exists ((c :: take k t) :: seps). simpl. rewrite H1.
        split; [done|]. split.
        -- constructor; [|done]. cbn [length].
           rewrite length_take_le by lia. apply (m_exact _ _ E).
        -- rewrite H3. simpl. by rewrite take_drop.
      * destruct (IH 0 (c :: cur) ltac:(lia)) as (seps & H1 & H2 & H3).
        exists seps. rewrite H3. simpl. by rewrite <- app_assoc.
    + cbn [Re.split_from]. simpl in Hskip.
      destruct (IH k cur ltac:(lia)) as (seps & H1 & H2 & H3).
      exists seps. done.
Qed.

Lemma split_from_no_match s : forall cur,
  Re.search m s = false -> Re.split_from m 0 cur s = [rev cur ++ s].
Proof.
  induction s as [|c t IH]; intros cur H; simpl in *.
  - by rewrite app_nil_r.
  - destruct (m (c :: t)) as [[|k]|]; try done;
      rewrite IH by done; simpl; by rewrite <- app_assoc.
Qed.

Lemma no_match_at_prefix s r : no_match_at m (s ++ r) -> no_match_at m s.
Proof.
  unfold no_match_at. intros H. destruct (m s) as [[|n]|] eqn:E; try done.
  by rewrite (m_prefix _ _ r E) in H.
Qed.

Lemma split_from_pieces_clean s : forall skip cur,
  (skip = 0 \/ cur = []) ->
  (forall i, i < length cur -> no_match_at m (drop i (rev cur) ++ s)) ->
  Forall (fun p => Re.search m p = false) (Re.split_from m skip cur s).
Proof.
  induction s as [|c t IH]; intros skip cur Hsc Hcur.
  - simpl. constructor; [|done]. apply search_false_iff.
    intros i Hi. rewrite length_rev in Hi.
    specialize (Hcur i Hi). by rewrite app_nil_r in Hcur.
  - destruct skip as [|k].
    + cbn [Re.split_from].
      assert (Hnext : no_match_at m (c :: t) ->
                Forall (fun p => Re.search m p = false)
                       (Re.split_from m 0 (c :: cur) t)).
      { intros Hc. apply IH; [by left|]. intros i Hi. simpl in Hi.
        destruct (decide (i < length cur)) as [Hlt|Hge].
        - simpl. rewrite drop_app_le by (rewrite length_rev; lia).
          rewrite <- app_assoc. by apply Hcur.
        - assert (i = length cur) as -> by lia.
          simpl. rewrite drop_app_length' by (by rewrite length_rev).
          done. }
      destruct (m (c :: t)) as [[|k]|] eqn:E.
      * apply Hnext. unfold no_match_at. by rewrite E.
      * constructor.
        -- apply search_false_iff. intros i Hi. rewrite length_rev in Hi.
           eapply no_match_at_prefix. by apply Hcur.
        -- apply IH; [by right|]. simpl. intros; lia.
      * apply Hnext. unfold no_match_at. by rewrite E.
    + cbn [Re.split_from]. destruct Hsc as [ | -> ]; [done|].
      apply IH; [by right|]. simpl. intros; lia.
Qed.

End ReSplitFacts.

(** * The header pattern *)

Section HeaderFacts.

Lemma take_drop_while {A} (p : A -> bool) l :
  take_while p l ++ drop_while p l = l.
Proof.
  induction l as [|x l IH]; [done|]. simpl.
  destruct (p x); simpl; [by rewrite IH | done].
Qed.

Lemma take_while_all {A} (p : A -> bool) l :
  Forall (fun x => p x = true) (take_while p l).
Proof.
  induction l as [|x l IH]; simpl; [constructor|].
  destruct (p x) eqn:E; [by constructor | constructor].
Qed.

Lemma drop_while_head {A} (p : A -> bool) l x r :
  drop_while p l = x :: r -> p x = false.
Proof.
  induction l as [|y l IH]; simpl; [done|].
  destruct (p y) eqn:E; [done|]. intros H. by inversion H; subst.
Qed.

Lemma span_app {A} (p : A -> bool) run x r :
  Forall (fun y => p y = true) run -> p x = false ->
  take_while p (run ++ x :: r) = run /\ drop_while p (run ++ x :: r) = x :: r.
Proof.
  intros Hrun Hx. induction Hrun as [|y run Hy _ IH]; simpl.
  - by rewrite Hx.
  - rewrite Hy. destruct IH as [-> ->]. done.
Qed.

Lemma hash_not_space c : Re.is_hash c = true -> isspace c = false.
Proof.
  unfold Re.is_hash. intros H. apply N.eqb_eq in H. by subst.
Qed.

Lemma header_Some s n :
  Re.header s = Some n <->
  exists hs w r,
    s = NL :: hs ++ w :: r
    /\ Forall (fun c => Re.is_hash c = true) hs
    /\ 2 <= length hs /\ isspace w = true /\ n = S (S (length hs)).
Proof.
  split.
  - destruct s as [|c t]; [done|]. unfold Re.header.
    destruct (N.eqb_spec c NL) as [->|]; [|done].
    destruct (drop_while Re.is_hash t) as [|w r] eqn:E; [done|].
    destruct (Nat.leb_spec 2 (length (take_while Re.is_hash t)));
      cbn [andb]; [|done].
    destruct (isspace w) eqn:Ew; [|done]. intros Hn. inversion Hn.
    exists (take_while Re.is_hash t), w, r. rewrite <- E, take_drop_while.
    repeat split; try done. apply take_while_all.
  - intros (hs & w & r & -> & Hhs & Hlen & Hw & ->). unfold Re.header.
    change (NL =? NL)%N with true. cbv iota.
    assert (Re.is_hash w = false) as Hnh.
    { destruct (Re.is_hash w) eqn:E; [|done].
      apply hash_not_space in E. congruence. }
    destruct (span_app Re.is_hash hs w r Hhs Hnh) as [-> ->].
    destruct (Nat.leb_spec 2 (length hs)); [|lia]. by rewrite Hw.
Qed.

Lemma header_bounded s n : Re.header s = Some n -> n <= length s.
Proof.
  intros H. apply header_Some in H as (hs & w & r & -> & _ & _ & _ & ->).
  simpl. rewrite length_app. simpl. lia.
Qed.

Lemma header_prefix s n r :
  Re.header s = Some (S n) -> Re.header (s ++ r) = Some (S n).
Proof.
  intros H. apply header_Some in H as (hs & w & r' & -> & Hhs & Hl & Hw & E).
  apply header_Some. exists hs, w, (r' ++ r).
  repeat split; try done. simpl. by rewrite <- app_assoc.
Qed.

Lemma header_exact s n :
  Re.header s = Some (S n) -> Re.header (take (S n) s) = Some (S n).
Proof.
  intros H. apply header_Some in H as (hs & w & r' & -> & Hhs & Hl & Hw & E).
  apply header_Some. exists hs, w, []. repeat split; try done.
  inversion E; subst. simpl. f_equal.
  change (w :: r') with ([w] ++ r'). rewrite app_assoc.
  rewrite take_app_length'; [done|]. rewrite length_app. simpl. lia.
Qed.

Lemma search_true_two_pieces (m : Re.matcher) s : forall cur,
  Re.search m s = true -> 2 <= length (Re.split_from m 0 cur s).
Proof.
  induction s as [|c t IH]; intros cur H; simpl in *; [done|].
  destruct (m (c :: t)) as [[|k]|]; try (by apply IH).
  destruct (re_split_from_cons m t k []) as (p & ps & ->). simpl. lia.
Qed.

End HeaderFacts.

(** C5 as stated fails: a text whose first line is a header, with one
    header line in the words of the specification, comes back as a single
    section, the header line still in it. *)
Lemma first_line_header_counterexample :
  let txt := lit "## Setup" ++ [NL] ++ lit "body" in
  header_here txt = true
  /\ spec_header_lines txt = 1
  /\ sections_of txt = [txt]
  /\ length (sections_of txt) <> 1 + spec_header_lines txt.
Proof. vm_compute. repeat split; discriminate. Qed.

Lemma split_from_skip (m : Re.matcher) t : forall k cur,
  Re.split_from m k cur t = Re.split_from m 0 cur (drop k t).
Proof.
  induction t as [|c t IH]; intros [|k] cur; try reflexivity.
  simpl. apply IH.
Qed.

(** Scanning over a stretch of text in which no match starts. *)
Lemma split_from_prefix (m : Re.matcher) p : forall cur rest,
  (forall j, j < length p -> no_match_at m (drop j (p ++ rest))) ->
  Re.split_from m 0 cur (p ++ rest) = Re.split_from m 0 (rev p ++ cur) rest.
Proof.
  induction p as [|c p IH]; intros cur rest Hno; [done|].
  pose proof (Hno 0 ltac:(simpl; lia)) as H0.
  unfold no_match_at in H0. simpl in H0. simpl.
  assert (Re.split_from m 0 (c :: cur) (p ++ rest)
          = Re.split_from m 0 ((rev p ++ [c]) ++ cur) rest) as Hnext.
  { rewrite IH; [by rewrite <- app_assoc|].
    intros j Hj. apply (Hno (S j)). simpl. lia. }
  destruct (m (c :: p ++ rest)) as [[|k]|]; done.
Qed.

Lemma sections_of_pieces (txt : str) :
  exists seps,
    length (sections_of txt) = S (length seps)
    /\ Forall header_separator seps
    /\ interleave (sections_of txt) seps = txt
    /\ Forall (fun sec => Re.search Re.header sec = false) (sections_of txt)
    /\ (if Re.search Re.header txt then 2 <= length (sections_of txt)
        else sections_of txt = [txt]).
Proof.
  destruct (split_from_interleave Re.header header_bounded header_exact
              txt 0 [] ltac:(lia)) as (seps & H1 & H2 & H3).
  exists seps. split; [done|]. split.
  { eapply Forall_impl; [exact H2|]. intros sep Hsep. cbv beta in Hsep.
    apply header_Some in Hsep as (hs & w & r & -> & Hhs & Hl & Hw & E).
    exists hs, w. simpl in E. rewrite length_app in E. simpl in E.
    assert (r = []) as -> by (destruct r; [done | simpl in E; lia]).
    repeat split; try done. eapply Forall_impl; [exact Hhs|].
    intros c Hc. by apply N.eqb_eq in Hc. }
  split; [done|]. split.
  { apply (split_from_pieces_clean Re.header header_prefix);
      [by left | simpl; intros; lia]. }
  destruct (Re.search Re.header txt) eqn:E.
  - by apply search_true_two_pieces.
  - by apply split_from_no_match.
Qed.

(** The first boundary is the leftmost occurrence, and the scan goes on
    after it. *)
Lemma sections_of_leftmost (txt p sep rest : str) :
  txt = p ++ sep ++ rest ->
  (forall j, j < length p -> no_match_at Re.header (drop j txt)) ->
  Re.header (sep ++ rest) = Some (length sep) ->
  sections_of txt = p :: sections_of rest.
Proof.
  intros -> Hno Hm. unfold sections_of, Re.split.
  rewrite split_from_prefix by done. rewrite app_nil_r.
  destruct sep as [|c sep].
  { simpl in Hm. apply header_Some in Hm as (? & ? & ? & _ & _ & _ & _ & ?).
    done. }
  simpl in Hm. simpl. rewrite Hm. rewrite rev_involutive. f_equal.
  by rewrite split_from_skip, drop_app_length.
Qed.

(** C5, amended.  The chunker splits the text at the leftmost
    non-overlapping occurrences of a newline followed by two or more
    hashes and one whitespace character.  First part: the sections, put
    back together with the separators consumed between them, are the
    text; each separator is such an occurrence; no section contains a
    further occurrence; and there is more than one section exactly when
    the text contains an occurrence.  Second part, which fixes the
    sections: when the text is [p ++ sep ++ rest], no occurrence starts
    within [p] and an occurrence [sep] starts right after it, the first
    section is [p], the text before the first occurrence, and the other
    sections are those of [rest].  A header on the first line of the text
    has no newline before it: it is not a boundary. *)
Theorem sections_of_boundaries (txt : str) :
  (exists seps,
     length (sections_of txt) = S (length seps)
     /\ Forall header_separator seps
     /\ interleave (sections_of txt) seps = txt
     /\ Forall (fun sec => Re.search Re.header sec = false) (sections_of txt)
     /\ (if Re.search Re.header txt then 2 <= length (sections_of txt)
         else sections_of txt = [txt]))
  /\ (forall p sep rest,
        txt = p ++ sep ++ rest ->
        (forall j, j < length p -> no_match_at Re.header (drop j txt)) ->
        Re.header (sep ++ rest) = Some (length sep) ->
        header_separator sep /\ sections_of txt = p :: sections_of rest).
Proof.
  split; [apply sections_of_pieces|].
  intros p sep rest Htxt Hno Hm. split; [|by eapply sections_of_leftmost].
  apply header_Some in Hm as (hs & w & r & E & Hhs & Hl & Hw & Hn).
  assert (length sep = S (S (length hs))) as Hlen by congruence.
  assert (sep = NL :: hs ++ [w]) as ->.
  { apply (f_equal (take (length sep))) in E.
    rewrite take_app_length in E. rewrite E, Hlen. simpl. f_equal.
    change (w :: r) with ([w] ++ r). rewrite app_assoc.
    rewrite take_app_length'; [done|]. rewrite length_app. simpl. lia. }
  exists hs, w. repeat split; try done. eapply Forall_impl; [exact Hhs|].
  intros c Hc. by apply N.eqb_eq in Hc.
Qed.

(** At ["intro\n## A\nbody"] the one boundary is the occurrence after
    [intro]; at ["\n##\n## x"] the occurrence at the start takes the second
    newline with it, so the header [## x] after it is no boundary. *)
Lemma sections_of_boundaries_witness :
  (let txt := lit "intro" ++ [NL] ++ lit "## A" ++ [NL] ++ lit "body" in
   header_separator ([NL] ++ lit "## ")
   /\ sections_of txt
      = lit "intro" :: sections_of (lit "A" ++ [NL] ++ lit "body"))
  /\ (let txt := [NL] ++ lit "##" ++ [NL] ++ lit "## x" in
      header_separator ([NL] ++ lit "##" ++ [NL])
      /\ sections_of txt = [] :: sections_of (lit "## x"))
  /\ sections_of ([NL] ++ lit "##" ++ [NL] ++ lit "## x") = [[]; lit "## x"].
Proof.
  split; [|split; [|vm_compute; reflexivity]].
  - apply (proj2 (sections_of_boundaries
                    (lit "intro" ++ [NL] ++ lit "## A" ++ [NL] ++ lit "body"))
             (lit "intro") ([NL] ++ lit "## ") (lit "A" ++ [NL] ++ lit "body")).
    + reflexivity.
    + intros j Hj.
      do 5 (destruct j as [|j]; [vm_compute; exact I|]).
      simpl in Hj. lia.
    + vm_compute; reflexivity.
  - apply (proj2 (sections_of_boundaries
                    ([NL] ++ lit "##" ++ [NL] ++ lit "## x"))
             [] ([NL] ++ lit "##" ++ [NL]) (lit "## x")).
    + reflexivity.
    + intros j Hj. simpl in Hj. lia.
    + vm_compute; reflexivity.
Defined.

(** * Facts about [re.sub] *)

Section ReSubFacts.

Variable m : Re.matcher.
Variable repl : str.

Lemma sub_from_skip t : forall k,
  Re.sub_from m repl k t = Re.sub m repl (drop k t).
Proof.
  induction t as [|c t IH]; intros [|k]; try reflexivity.
  simpl. apply IH.
Qed.

Lemma sub_cons c t :
  Re.sub m repl (c :: t)
  = match m (c :: t) with
    | Some (S k) => repl ++ Re.sub m repl (drop k t)
    | _ => c :: Re.sub m repl t
    end.
Proof.
  unfold Re.sub at 1. simpl.
  destruct (m (c :: t)) as [[|k]|]; try reflexivity.
  by rewrite sub_from_skip.
Qed.

Lemma sub_no_match s : Re.search m s = false -> Re.sub m repl s = s.
Proof.
  induction s as [|c t IH]; [done|]. intros H. rewrite sub_cons.
  simpl in H. destruct (m (c :: t)) as [[|k]|]; try done;
    by rewrite IH.
Qed.

End ReSubFacts.

Section WhitespaceFacts.

Lemma drop_take_while {A} (p : A -> bool) l :
  drop (length (take_while p l)) l = drop_while p l.
Proof.
  induction l as [|x l IH]; [done|]. simpl. destruct (p x); [apply IH | done].
Qed.

Lemma take_while_drop_while {A} (p : A -> bool) l :
  take_while p (drop_while p l) = [].
Proof.
  induction l as [|x l IH]; [done|]. simpl.
  destruct (p x) eqn:E; [done|]. simpl. by rewrite E.
Qed.

Lemma squeeze_newlines_cons c t :
  squeeze_newlines (c :: t)
  = if 3 <=? nl_run (c :: t)
    then NL :: NL :: squeeze_newlines (drop_while Re.is_nl t)
    else c :: squeeze_newlines t.
Proof.
  unfold squeeze_newlines. rewrite sub_cons. unfold Re.newlines3.
  fold (nl_run (c :: t)). destruct (Nat.leb_spec 3 (nl_run (c :: t))) as [H|H];
    [|done].
  unfold nl_run in *. simpl in *. destruct (Re.is_nl c); simpl in *; [|lia].
  by rewrite drop_take_while.
Qed.

Lemma squeeze_newlines_run s : nl_run (squeeze_newlines s) <= nl_run s.
Proof.
  remember (length s) as n eqn:En. revert s En.
  induction n as [n IH] using lt_wf_ind. intros [|c t] En; [done|].
  rewrite squeeze_newlines_cons.
  destruct (Nat.leb_spec 3 (nl_run (c :: t))) as [H|H].
  - pose proof (IH (length (drop_while Re.is_nl t))) as IH'.
    assert (length (drop_while Re.is_nl t) <= length t) as Hl.
    { rewrite <- drop_take_while, length_drop. lia. }
    specialize (IH' ltac:(simpl in En; lia) _ eq_refl).
    unfold nl_run in IH' at 2. rewrite take_while_drop_while in IH'.
    unfold nl_run in *. simpl in *.
    change (Re.is_nl NL) with true. simpl. lia.
  - specialize (IH (length t) ltac:(simpl in En; lia) t eq_refl).
    unfold nl_run in *. simpl in *. destruct (Re.is_nl c); simpl; lia.
Qed.

Lemma squeeze_newlines_no3 s : no3 (squeeze_newlines s).
Proof.
  remember (length s) as n eqn:En. revert s En.
  induction n as [n IH] using lt_wf_ind. intros [|c t] En; [done|].
  rewrite squeeze_newlines_cons.
  destruct (Nat.leb_spec 3 (nl_run (c :: t))) as [H|H].
  - assert (length (drop_while Re.is_nl t) <= length t) as Hl.
    { rewrite <- drop_take_while, length_drop. lia. }
    pose proof (IH (length (drop_while Re.is_nl t))
                  ltac:(simpl in En; lia) _ eq_refl) as IH'.
    pose proof (squeeze_newlines_run (drop_while Re.is_nl t)) as Hr.
    unfold nl_run in Hr at 2. rewrite take_while_drop_while in Hr.
    simpl in Hr.
    destruct (squeeze_newlines (drop_while Re.is_nl t)) as [|d o] eqn:E.
    + simpl. unfold nl_run. simpl. change (Re.is_nl NL) with true. simpl.
      repeat split; lia.
    + unfold nl_run in Hr. simpl in Hr.
      cbn [no3]. unfold nl_run. cbn [take_while].
      change (Re.is_nl NL) with true. cbv iota.
      destruct (Re.is_nl d) eqn:Ed; [simpl in Hr; lia|].
      repeat split; simpl; try lia. apply IH'.
  - pose proof (IH (length t) ltac:(simpl in En; lia) t eq_refl) as IH'.
    pose proof (squeeze_newlines_run t) as Hr.
    split; [|done]. unfold nl_run in *. simpl in *.
    destruct (Re.is_nl c); simpl in *; lia.
Qed.

Lemma no3_fixed s : no3 s -> squeeze_newlines s = s.
Proof.
  induction s as [|c t IH]; [done|]. intros [H1 H2].
  rewrite squeeze_newlines_cons.
  destruct (Nat.leb_spec 3 (nl_run (c :: t))); [lia|]. by rewrite IH.
Qed.

End WhitespaceFacts.

Section BlankFacts.

Lemma take_while_nil_drop {A} (p : A -> bool) l :
  take_while p l = [] -> drop_while p l = l.
Proof. intros H. rewrite <- (take_drop_while p l) at 2. by rewrite H. Qed.

Lemma take_while_take_nil {A} (p : A -> bool) n l :
  take_while p l = [] -> take_while p (take n l) = [].
Proof.
  destruct l as [|x l]; [by destruct n|]. destruct n; [done|]. simpl.
  by destruct (p x).
Qed.

Lemma blank_not_nl c : Re.is_blank c = true -> Re.is_nl c = false.
Proof.
  unfold Re.is_blank, Re.is_nl. intros H. apply orb_true_iff in H.
  destruct H as [H|H]; apply N.eqb_eq in H; by subst.
Qed.

Lemma squeeze_blanks_cons c t :
  squeeze_blanks (c :: t)
  = if Re.is_blank c
    then SPACE :: squeeze_blanks (drop_while Re.is_blank t)
    else c :: squeeze_blanks t.
Proof.
  unfold squeeze_blanks. rewrite sub_cons. unfold Re.blanks.
  cbn [take_while]. destruct (Re.is_blank c); [|done].
  cbn [length Nat.leb]. by rewrite drop_take_while.
Qed.

Lemma squeeze_blanks_head s :
  take_while Re.is_blank s = [] ->
  take_while Re.is_blank (squeeze_blanks s) = [].
Proof.
  destruct s as [|c t]; [done|]. rewrite squeeze_blanks_cons. simpl.
  destruct (Re.is_blank c) eqn:E; [done|]. simpl. by rewrite E.
Qed.

Lemma squeeze_blanks_single s : single_blanks (squeeze_blanks s).
Proof.
  remember (length s) as n eqn:En. revert s En.
  induction n as [n IH] using lt_wf_ind. intros [|c t] En; [done|].
  rewrite squeeze_blanks_cons. destruct (Re.is_blank c) eqn:E.
  - assert (length (drop_while Re.is_blank t) <= length t) as Hl.
    { rewrite <- drop_take_while, length_drop. lia. }
    split.
    + intros _. split; [done|]. apply squeeze_blanks_head.
      apply take_while_drop_while.
    + apply (IH (length (drop_while Re.is_blank t))); [simpl in En; lia|done].
  - split; [by rewrite E|]. apply (IH (length t)); [simpl in En; lia|done].
Qed.

Lemma single_blanks_fixed s : single_blanks s -> squeeze_blanks s = s.
Proof.
  induction s as [|c t IH]; [done|]. intros [H1 H2].
  rewrite squeeze_blanks_cons. destruct (Re.is_blank c) eqn:E.
  - destruct (H1 eq_refl) as [-> Ht].
    rewrite (take_while_nil_drop _ _ Ht). by rewrite IH.
  - by rewrite IH.
Qed.

Lemma squeeze_blanks_run s : nl_run (squeeze_blanks s) = nl_run s.
Proof.
  induction s as [|c t IH]; [done|]. rewrite squeeze_blanks_cons.
  destruct (Re.is_blank c) eqn:E.
  - apply blank_not_nl in E. unfold nl_run. simpl. by rewrite E.
  - unfold nl_run in *. simpl. destruct (Re.is_nl c); simpl; [by rewrite IH|done].
Qed.

Lemma no3_drop_while p s : no3 s -> no3 (drop_while p s).
Proof.
  induction s as [|c t IH]; [done|]. intros H. simpl.
  destruct (p c); [apply IH; by destruct H | done].
Qed.

Lemma squeeze_blanks_no3 s : no3 s -> no3 (squeeze_blanks s).
Proof.
  remember (length s) as n eqn:En. revert s En.
  induction n as [n IH] using lt_wf_ind. intros [|c t] En H; [done|].
  pose proof (squeeze_blanks_run (c :: t)) as Hr.
  rewrite squeeze_blanks_cons in *. destruct H as [H1 H2].
  destruct (Re.is_blank c) eqn:E.
  - assert (length (drop_while Re.is_blank t) <= length t) as Hl.
    { rewrite <- drop_take_while, length_drop. lia. }
    split; [lia|].
    apply (IH (length (drop_while Re.is_blank t))); [simpl in En; lia|done|].
    by apply no3_drop_while.
  - split; [lia|]. apply (IH (length t)); [simpl in En; lia|done|done].
Qed.

Lemma nl_run_take n s : nl_run (take n s) <= nl_run s.
Proof.
  unfold nl_run. revert n. induction s as [|c t IH]; intros [|n]; simpl;
    try lia.
  destruct (Re.is_nl c); simpl; [|lia]. specialize (IH n). lia.
Qed.

Lemma no3_take n s : no3 s -> no3 (take n s).
Proof.
  revert n. induction s as [|c t IH]; intros [|n] H; try done.
  destruct H as [H1 H2]. split; [|by apply IH].
  pose proof (nl_run_take (S n) (c :: t)). simpl in *. lia.
Qed.

Lemma single_blanks_drop_while p s :
  single_blanks s -> single_blanks (drop_while p s).
Proof.
  induction s as [|c t IH]; [done|]. intros H. simpl.
  destruct (p c); [apply IH; by destruct H | done].
Qed.

Lemma single_blanks_take n s : single_blanks s -> single_blanks (take n s).
Proof.
  revert n. induction s as [|c t IH]; intros [|n] H; try done.
  destruct H as [H1 H2]. split; [|by apply IH].
  intros Hc. destruct (H1 Hc) as [-> Ht]. split; [done|].
  by apply take_while_take_nil.
Qed.

Lemma rstrip_take s : exists n, rstrip s = take n s.
Proof.
  unfold rstrip. exists (length (drop_while isspace (rev s))).
  pose proof (take_drop_while isspace (rev s)) as E.
  apply (f_equal (@rev _)) in E. rewrite rev_app_distr, rev_involutive in E.
  remember (drop_while isspace (rev s)) as d eqn:Ed.
  remember (take_while isspace (rev s)) as tw eqn:Etw.
  clear Ed Etw. subst s. rewrite take_app_length'; [done|].
  by rewrite length_rev.
Qed.

Lemma strip_fixed s : strip (strip s) = strip s.
Proof.
  unfold strip. destruct (rstrip_take (lstrip s)) as [n Hn].
  assert (lstrip (rstrip (lstrip s)) = rstrip (lstrip s)) as ->.
  { rewrite Hn. unfold lstrip. apply take_while_nil_drop.
    apply take_while_take_nil, take_while_drop_while. }
  unfold rstrip. rewrite rev_involutive.
  rewrite (take_while_nil_drop isspace (drop_while isspace _));
    [done | apply take_while_drop_while].
Qed.

Lemma strip_no3 s : no3 s -> no3 (strip s).
Proof.
  intros H. unfold strip. destruct (rstrip_take (lstrip s)) as [n ->].
  by apply no3_take, no3_drop_while.
Qed.

Lemma strip_single_blanks s : single_blanks s -> single_blanks (strip s).
Proof.
  intros H. unfold strip. destruct (rstrip_take (lstrip s)) as [n ->].
  by apply single_blanks_take, single_blanks_drop_while.
Qed.

End BlankFacts.

(** * The cleaner *)

Lemma clean_markdown_text_unfold (t : str) :
  clean_markdown_text t
  = strip (squeeze_blanks (squeeze_newlines
             (Re.sub Re.headerlink [] (Re.sub Re.anchor [] t)))).
Proof. reflexivity. Qed.

(** C2 as stated fails: removing the inner [headerlink] leaves a new
    [headerlink], which only a second cleaning removes. *)
Lemma clean_not_idempotent_counterexample :
  let t := lit "headheaderlinkerlink" in
  clean_markdown_text t = lit "headerlink"
  /\ clean_markdown_text (clean_markdown_text t) = []
  /\ clean_markdown_text (clean_markdown_text t) <> clean_markdown_text t.
Proof. vm_compute. repeat split; discriminate. Qed.

(** C2, amended.  Cleaning a cleaned text changes nothing more, provided
    the cleaned text holds no anchor markup and no [headerlink] token
    (the two removals are single passes, and removing one artifact can
    uncover another); the whitespace normalisation and the trimming are
    idempotent without condition. *)
Theorem clean_idempotent_when_settled (t : str)
  (Hanchor : Re.search Re.anchor (clean_markdown_text t) = false)
  (Hlink : Re.search Re.headerlink (clean_markdown_text t) = false) :
  clean_markdown_text (clean_markdown_text t) = clean_markdown_text t.
Proof.
  rewrite (clean_markdown_text_unfold (clean_markdown_text t)).
  rewrite (sub_no_match _ _ _ Hanchor), (sub_no_match _ _ _ Hlink).
  rewrite (clean_markdown_text_unfold t).
  set (x := Re.sub Re.headerlink [] (Re.sub Re.anchor [] t)).
  rewrite (no3_fixed (strip _)).
  2:{ apply strip_no3, squeeze_blanks_no3, squeeze_newlines_no3. }
  rewrite (single_blanks_fixed (strip _)).
  2:{ apply strip_single_blanks, squeeze_blanks_single. }
  by rewrite strip_fixed.
Qed.

Lemma clean_idempotent_when_settled_witness :
  let t := lit "  Intro {#intro}  headerlink	text " ++ [NL; NL; NL; NL]
           ++ lit "more" in
  Re.search Re.anchor (clean_markdown_text t) = false
  /\ Re.search Re.headerlink (clean_markdown_text t) = false
  /\ clean_markdown_text (clean_markdown_text t) = clean_markdown_text t.
Proof.
  intros t. split; [vm_compute; reflexivity|].
  split; [vm_compute; reflexivity|].
  apply (clean_idempotent_when_settled t); vm_compute; reflexivity.
Defined.

(** * The cleaner never lengthens a text

    This gives the converse of the amended C2: a cleaned text that still
    holds an anchor or a [headerlink] token gets strictly shorter when
    cleaned again. *)

Section LengthFacts.

Variable m : Re.matcher.
Variable repl : str.
Hypothesis m_bounded : forall s n, m s = Some n -> n <= length s.
Hypothesis repl_short : forall s n, m s = Some (S n) -> length repl <= S n.

Lemma sub_from_length s : forall skip,
  skip <= length s ->
  length (Re.sub_from m repl skip s) <= length s - skip.
Proof.
  induction s as [|c t IH]; intros skip Hskip; [simpl; lia|].
  destruct skip as [|k]; cbn [Re.sub_from].
  - destruct (m (c :: t)) as [[|k]|] eqn:E.
    + specialize (IH 0 ltac:(lia)). simpl in *. lia.
    + pose proof (m_bounded _ _ E) as Hb. pose proof (repl_short _ _ E) as Hr.
      specialize (IH k ltac:(simpl in Hb; lia)).
      rewrite length_app. simpl in *. lia.
    + specialize (IH 0 ltac:(lia)). simpl in *. lia.
  - specialize (IH k ltac:(simpl in Hskip; lia)). simpl in *. lia.
Qed.

Lemma sub_length s : length (Re.sub m repl s) <= length s.
Proof. pose proof (sub_from_length s 0 ltac:(lia)). unfold Re.sub. lia. Qed.

Lemma sub_shrinks s :
  repl = [] -> Re.search m s = true -> length (Re.sub m repl s) < length s.
Proof.
  intros Hrepl. unfold Re.sub.
  induction s as [|c t IH]; intros H; simpl in H; [done|].
  cbn [Re.sub_from]. destruct (m (c :: t)) as [[|k]|] eqn:E.
  - specialize (IH H). simpl. lia.
  - pose proof (m_bounded _ _ E) as Hb. simpl in Hb.
    pose proof (sub_from_length t k ltac:(lia)).
    assert (length repl = 0) by (by rewrite Hrepl).
    rewrite length_app. simpl. lia.
  - specialize (IH H). simpl. lia.
Qed.

End LengthFacts.

Section CleanerLength.

Lemma take_while_length {A} (p : A -> bool) l :
  length (take_while p l) <= length l.
Proof.
  induction l as [|x l IH]; [done|]. simpl. destruct (p x); simpl; lia.
Qed.

Lemma anchor_body_bounded s n : Re.anchor_body s = Some n -> n <= length s.
Proof.
  revert n. induction s as [|c t IH]; intros n; simpl; [done|].
  destruct (N.eqb c RBRACE); [intros H; inversion H; lia|].
  destruct (N.eqb c NL); [done|].
  destruct (Re.anchor_body t) as [k|]; [|done]. simpl.
  intros H. inversion H. specialize (IH k eq_refl). lia.
Qed.

Lemma anchor_bounded s n : Re.anchor s = Some n -> n <= length s.
Proof.
  destruct s as [|a [|b t]]; try done. simpl.
  destruct (N.eqb a LBRACE && N.eqb b HASH); [|done].
  destruct (Re.anchor_body t) as [k|] eqn:E; [|done]. simpl.
  intros H. inversion H. apply anchor_body_bounded in E. lia.
Qed.

Lemma literal_ci_length pat s :
  Re.literal_ci pat s = true -> length pat <= length s.
Proof.
  revert s. induction pat as [|p pat IH]; intros s H; simpl; [lia|].
  destruct s as [|c t]; [done|]. simpl in H.
  apply andb_true_iff in H as [_ H]. specialize (IH t H). simpl. lia.
Qed.

Lemma headerlink_bounded s n : Re.headerlink s = Some n -> n <= length s.
Proof.
  unfold Re.headerlink. destruct (Re.literal_ci _ s) eqn:E; [|done].
  intros H. inversion H. apply literal_ci_length in E. exact E.
Qed.

Lemma newlines3_bounded s n : Re.newlines3 s = Some n -> n <= length s.
Proof.
  unfold Re.newlines3. destruct (3 <=? _); [|done]. intros H. inversion H.
  apply take_while_length.
Qed.

Lemma blanks_bounded s n : Re.blanks s = Some n -> n <= length s.
Proof.
  unfold Re.blanks. destruct (1 <=? _); [|done]. intros H. inversion H.
  apply take_while_length.
Qed.

Lemma strip_length s : length (strip s) <= length s.
Proof.
  unfold strip. destruct (rstrip_take (lstrip s)) as [n ->].
  rewrite length_take. unfold lstrip.
  rewrite <- drop_take_while, length_drop. lia.
Qed.

Lemma squeeze_newlines_length s : length (squeeze_newlines s) <= length s.
Proof.
  apply sub_length; [apply newlines3_bounded|].
  intros s' n. unfold Re.newlines3.
  destruct (Nat.leb_spec 3 (length (take_while Re.is_nl s'))); [|done].
  intros H'. inversion H'. simpl. lia.
Qed.

Lemma squeeze_blanks_length s : length (squeeze_blanks s) <= length s.
Proof.
  apply sub_length; [apply blanks_bounded|].
  intros s' n _. simpl. lia.
Qed.

Lemma clean_length_after_removal t :
  length (clean_markdown_text t)
  <= length (Re.sub Re.headerlink [] (Re.sub Re.anchor [] t)).
Proof.
  rewrite clean_markdown_text_unfold.
  etrans; [apply strip_length|]. etrans; [apply squeeze_blanks_length|].
  apply squeeze_newlines_length.
Qed.

(** X24.  The condition of the amended C2 is also necessary: a cleaned
    text that cleaning leaves unchanged holds no anchor and no
    [headerlink] token. *)
Lemma clean_idempotent_only_when_settled (t : str) :
  clean_markdown_text (clean_markdown_text t) = clean_markdown_text t ->
  Re.search Re.anchor (clean_markdown_text t) = false
  /\ Re.search Re.headerlink (clean_markdown_text t) = false.
Proof.
  set (u := clean_markdown_text t). intros Hfix.
  pose proof (clean_length_after_removal u) as Hlen. rewrite Hfix in Hlen.
  assert (Hh : length (Re.sub Re.headerlink [] (Re.sub Re.anchor [] u))
               <= length (Re.sub Re.anchor [] u)).
  { apply sub_length; [apply headerlink_bounded | simpl; lia]. }
  destruct (Re.search Re.anchor u) eqn:Ea.
  { pose proof (sub_shrinks Re.anchor [] anchor_bounded
                  ltac:(simpl; lia) u eq_refl Ea). lia. }
  split; [done|]. rewrite (sub_no_match _ _ _ Ea) in Hlen.
  destruct (Re.search Re.headerlink u) eqn:El; [|done].
  pose proof (sub_shrinks Re.headerlink [] headerlink_bounded
                ltac:(simpl; lia) u eq_refl El). lia.
Qed.

End CleanerLength.

(** * More about retrieval *)

Section RetrievalMore.

Context {F : Type} (Fzero : F) (Fadd Fmul : F -> F -> F)
        (Fltb : F -> F -> bool).

Local Abbreviation retrieve := (retrieve_documents F Fzero Fadd Fmul Fltb).
Local Abbreviation labels := (search_labels F Fzero Fadd Fmul Fltb).

Lemma getitem_Ok_elem {A} (l : list A) i a : getitem l i = Ok a -> a ∈ l.
Proof.
  unfold getitem, Py.index.
  destruct (0 <=? i)%Z.
  - destruct (l !! Z.to_nat i) eqn:E; [|done]. intros H. inversion H; subst.
    by eapply list_elem_of_lookup_2.
  - destruct (- Z.of_nat (length l) <=? i)%Z; [|done].
    destruct (l !! _) eqn:E; [|done]. intros H. inversion H; subst.
    by eapply list_elem_of_lookup_2.
Qed.

Lemma collect_elems documents row : forall acc results,
  collect documents row acc = Ok results ->
  Forall (fun d => d ∈ documents) acc ->
  Forall (fun d => d ∈ documents) results.
Proof.
  unfold collect. induction row as [|i row IH]; intros acc results H Hacc.
  - simpl in H. by inversion H; subst.
  - simpl in H. destruct (getitem documents i) as [d|e] eqn:E; [|done].
    simpl in H. apply (IH _ _ H). apply Forall_app. split; [done|].
    constructor; [|constructor]. by eapply getitem_Ok_elem.
Qed.

(** A retrieval that returns went through these steps. *)
Lemma retrieve_Ok_inv (σ : disk F) query k results :
  retrieve σ query k = Ok results ->
  exists ix documents q,
    load_faiss_index σ = Ok (ix, documents)
    /\ (0 < k)%Z
    /\ collect documents (labels ix q (Z.to_nat k)) [] = Ok results.
Proof.
  unfold retrieve_documents.
  destruct (load_faiss_index σ) as [[ix documents]|e]; [|done].
  cbn [bind]. intros H.
  assert (Hrows : forall d rows,
    (do indices <- index_search F Fzero Fadd Fmul Fltb ix (Array2 d rows) k;
     do row <- getitem indices 0;
     for_each
       (fun results doc_index =>
          do d <- getitem documents doc_index; Ok (results ++ [d]))
       row []) = Ok results ->
    exists q, (0 < k)%Z
      /\ collect documents (labels ix q (Z.to_nat k)) [] = Ok results).
  { intros d rows. unfold index_search.
    destruct (negb (d =? ix_d ix)); [done|].
    destruct (Z.ltb_spec 0 k); [|done]. cbn [negb bind].
    destruct rows as [|q rest]; [done|]. intros Hc. exists q. done. }
  destruct query as [v|d rows].
  - destruct (Hrows _ _ H) as (q & ? & ?). exists ix, documents, q. done.
  - destruct (Hrows _ _ H) as (q & ? & ?). exists ix, documents, q. done.
Qed.

(** X1.  A retrieval that returns has exactly [top_k] entries, whatever the
    size of the corpus: it never returns fewer, and never the empty list. *)
Theorem retrieve_exactly_top_k
  (σ : disk F) (query : ndarray F) (top_k : Z) (results : list doc)
  (Hret : retrieve σ query top_k = Ok results) :
  (1 <= top_k)%Z /\ Z.of_nat (length results) = top_k /\ results <> [].
Proof.
  apply retrieve_Ok_inv in Hret as (ix & documents & q & _ & Hk & Hc).
  apply collect_length in Hc. rewrite search_labels_length in Hc.
  simpl in Hc. split; [lia|]. split; [lia|].
  destruct results; [simpl in Hc; lia | done].
Qed.

(** X2.  Every entry of a retrieval result is a chunk of the loaded
    corpus. *)
Theorem retrieve_results_in_corpus
  (σ : disk F) (query : ndarray F) (top_k : Z) (results : list doc)
  (Hret : retrieve σ query top_k = Ok results) :
  exists ix documents,
    load_faiss_index σ = Ok (ix, documents)
    /\ Forall (fun d => d ∈ documents) results.
Proof.
  apply retrieve_Ok_inv in Hret as (ix & documents & q & Hload & _ & Hc).
  exists ix, documents. split; [done|].
  apply (collect_elems _ _ _ _ Hc). constructor.
Qed.

(** X3.  Missing artifacts.  [faiss.read_index] runs first: without the
    index file retrieval raises [RuntimeError], whether the corpus file
    is there or not; with the index file there and the corpus file
    missing it raises [OSError]. *)
Theorem retrieve_missing_artifact
  (σ : disk F) (query : ndarray F) (top_k : Z)
  (Hmissing : files σ !! Config.INDEX_PATH = None
              \/ files σ !! Config.DOCS_PATH = None) :
  retrieve σ query top_k
  = Raise (match files σ !! Config.INDEX_PATH with
           | Some (FaissIndex _) => OSError
           | _ => RuntimeError
           end).
Proof.
  unfold retrieve_documents, load_faiss_index.
  destruct Hmissing as [-> | Hd]; [done|]. rewrite Hd.
  by destruct (files σ !! Config.INDEX_PATH) as [[| |]|].
Qed.

End RetrievalMore.

Lemma retrieve_exactly_top_k_witness :
  retrieve_Z corpus_disk (Array1 [1; 0]%Z) 5
  = Ok [Doc text_b (lit "b.md"); Doc text_a (lit "a.md");
        Doc text_c (lit "c.md"); Doc text_c (lit "c.md");
        Doc text_c (lit "c.md")]
  /\ (1 <= 5)%Z /\ Z.of_nat 5 = 5%Z.
Proof.
  split; [vm_compute; reflexivity|].
  pose proof (retrieve_exactly_top_k 0%Z Z.add Z.mul Z.ltb corpus_disk
                (Array1 [1; 0]%Z) 5 _ ltac:(vm_compute; reflexivity)) as H.
  split; [apply H | apply (proj1 (proj2 H))].
Defined.

Lemma retrieve_results_in_corpus_witness :
  exists ix documents,
    load_faiss_index corpus_disk = Ok (ix, documents)
    /\ Forall (fun d => d ∈ documents)
         [Doc text_b (lit "b.md"); Doc text_a (lit "a.md")].
Proof.
  apply (retrieve_results_in_corpus 0%Z Z.add Z.mul Z.ltb corpus_disk
           (Array1 [1; 0]%Z) 2).
  vm_compute; reflexivity.
Defined.

Lemma retrieve_missing_artifact_witness :
  retrieve_Z empty_disk (Array1 [1; 0]%Z) 3 = Raise RuntimeError
  /\ retrieve_Z index_only_disk (Array1 [1; 0]%Z) 3 = Raise OSError.
Proof.
  split.
  - apply (retrieve_missing_artifact 0%Z Z.add Z.mul Z.ltb empty_disk).
    left. vm_compute; reflexivity.
  - apply (retrieve_missing_artifact 0%Z Z.add Z.mul Z.ltb index_only_disk).
    right. vm_compute; reflexivity.
Defined.

(** * Loops in sequence *)

Lemma for_each_app {A S} (body : S -> A -> result S) l1 l2 : forall acc,
  for_each body (l1 ++ l2) acc
  = do acc' <- for_each body l1 acc; for_each body l2 acc'.
Proof.
  induction l1 as [|x l1 IH]; intros acc; simpl; [done|].
  destruct (body acc x); simpl; [apply IH | done].
Qed.

(** * More about the chunker *)

Section ChunkerMore.

Lemma concat_map_nil {A B} (l : list A) :
  concat (List.map (fun _ => @nil B) l) = [].
Proof. induction l as [|x l IH]; [done|]. exact IH. Qed.

Lemma windows_neg w (words : list str) : (w < 0)%Z -> windows w words = [].
Proof. intros Hw. unfold windows. rewrite range_neg by lia. done. Qed.

Lemma chunk_is_joined_window text w chunks c :
  split_into_chunks text w = Ok chunks -> c ∈ chunks ->
  exists section win,
    In section (sections_of text)
    /\ In win (windows w (Py.split section))
    /\ Forall is_word win
    /\ c = join [SPACE] win
    /\ keep c = true.
Proof.
  intros H Hc. destruct (Z.eq_dec w 0%Z) as [->|Hw].
  { by rewrite split_into_chunks_zero in H. }
  rewrite split_into_chunks_ok in H by done. inversion H; subst.
  apply list_elem_of_In, in_concat in Hc as (l & Hl & Hc).
  apply in_map_iff in Hl as (sec & <- & Hsec).
  apply filter_In in Hc as [Hc Hk].
  apply candidates_of_elem in Hc as (win & Hwin & -> & _).
  exists sec, win. repeat split; try done.
  pose proof (windows_words w _ (split_words sec)) as Hw'.
  rewrite Forall_forall in Hw'. apply Hw'. by apply list_elem_of_In.
Qed.

Lemma join_cons2 (w w' : str) ws :
  join [SPACE] (w :: w' :: ws) = w ++ SPACE :: join [SPACE] (w' :: ws).
Proof. reflexivity. Qed.

Lemma join_chars win :
  Forall is_word win ->
  Forall (fun ch => isspace ch = true -> ch = SPACE) (join [SPACE] win).
Proof.
  induction win as [|w ws IH]; intros H; [constructor|].
  inversion H as [|? ? [_ Hw] Hws]; subst.
  assert (Forall (fun ch => isspace ch = true -> ch = SPACE) w) as Hw'.
  { eapply Forall_impl; [exact Hw|]. intros ch Hch. cbv beta in Hch.
    rewrite Hch. done. }
  destruct ws as [|w' ws']; [done|]. rewrite join_cons2.
  apply Forall_app. split; [done|]. constructor; [done|]. by apply IH.
Qed.

Lemma join_head win :
  Forall is_word win -> win <> [] ->
  exists c t, join [SPACE] win = c :: t /\ isspace c = false.
Proof.
  intros H Hne. destruct win as [|w ws]; [done|].
  inversion H as [|? ? [Hw Hns] _]; subst.
  destruct w as [|c w]; [done|]. inversion Hns; subst.
  destruct ws as [|w' ws']; [by exists c, w|].
  rewrite join_cons2. by eexists c, _.
Qed.

Lemma join_last win :
  Forall is_word win -> win <> [] ->
  exists i c, join [SPACE] win = i ++ [c] /\ isspace c = false.
Proof.
  induction win as [|w ws IH]; intros H Hne; [done|].
  inversion H as [|? ? [Hw Hns] Hws]; subst.
  destruct ws as [|w' ws'].
  - destruct (exists_last Hw) as (i & c & ->). exists i, c. split; [done|].
    apply Forall_app in Hns as [_ Hc]. by inversion Hc.
  - destruct (IH Hws ltac:(done)) as (i & c & Hi & Hc).
    rewrite join_cons2, Hi. exists (w ++ SPACE :: i), c.
    split; [|done]. by rewrite <- app_assoc.
Qed.

Lemma strip_unchanged s :
  (s = [] \/ ((exists c t, s = c :: t /\ isspace c = false)
              /\ (exists i c, s = i ++ [c] /\ isspace c = false))) ->
  strip s = s.
Proof.
  intros [->|[(c & t & Hh & Hc) (i & c' & Hl & Hc')]]; [done|].
  unfold strip, lstrip, rstrip.
  assert (drop_while isspace s = s) as ->.
  { rewrite Hh. simpl. by rewrite Hc. }
  rewrite Hl at 1. rewrite rev_app_distr. simpl. rewrite Hc'.
  change (c' :: rev i) with (rev [c'] ++ rev i).
  by rewrite <- rev_app_distr, rev_involutive.
Qed.

Lemma join_strip win : Forall is_word win -> strip (join [SPACE] win) = join [SPACE] win.
Proof.
  intros H. apply strip_unchanged. destruct win as [|w ws]; [by left|].
  right. split; [by apply join_head | by apply join_last].
Qed.

(** X6.  The chunk size at its edges: with [chunk_size = 0] the chunker
    raises [ValueError] on every text, the empty one included; with a
    negative [chunk_size] it returns no chunk and no error. *)
Theorem split_into_chunks_nonpositive_size
  (txt : str) (chunk_size : Z) (Hsize : (chunk_size <= 0)%Z) :
  split_into_chunks txt chunk_size
  = if (chunk_size =? 0)%Z then Raise ValueError else Ok [].
Proof.
  destruct (Z.eqb_spec chunk_size 0) as [->|Hne].
  - apply split_into_chunks_zero.
  - rewrite split_into_chunks_ok by done. f_equal.
    rewrite <- (concat_map_nil (sections_of txt)). f_equal.
    apply List.map_ext. intros sec. unfold candidates_of.
    by rewrite windows_neg by lia.
Qed.

Lemma split_into_chunks_nonpositive_size_witness :
  (-3 <= 0)%Z
  /\ split_into_chunks sample_text (-3)
     = if (-3 =? 0)%Z then Raise ValueError else Ok [].
Proof.
  split; [lia | apply (split_into_chunks_nonpositive_size sample_text (-3)); lia].
Defined.

(** X7.  Every chunk is a run of words separated by single spaces: joining
    its words with one space gives the chunk back, it has no whitespace
    at either end (the [strip] of the guard changes nothing), and its only
    whitespace characters are spaces, so no newline of the document
    survives in a chunk. *)
Theorem chunk_single_spaced
  (txt : str) (chunk_size : Z) (chunks : list str)
  (Hchunks : split_into_chunks txt chunk_size = Ok chunks) :
  Forall (fun c =>
            join [SPACE] (Py.split c) = c
            /\ strip c = c
            /\ Forall (fun ch => isspace ch = true -> ch = SPACE) c) chunks.
Proof.
  apply Forall_forall. intros c Hc.
  destruct (chunk_is_joined_window _ _ _ _ Hchunks Hc)
    as (sec & win & _ & _ & Hwin & -> & _).
  split; [by rewrite split_join|]. split; [by apply join_strip|].
  by apply join_chars.
Qed.

Lemma chunk_single_spaced_witness :
  split_into_chunks sample_text 6 = Ok [sample_text]
  /\ Forall (fun c =>
            join [SPACE] (Py.split c) = c
            /\ strip c = c
            /\ Forall (fun ch => isspace ch = true -> ch = SPACE) c)
         [sample_text].
Proof.
  split; [vm_compute; reflexivity|].
  apply (chunk_single_spaced sample_text 6). vm_compute; reflexivity.
Defined.

(** X8.  The windows of a section: a section of [n] words gives
    [ceil(n / max_words)] candidate chunks (none for a section without
    words); the candidate at position [i] has [min(max_words, n - i *
    max_words)] words, so every candidate but the last is full. *)
Theorem section_candidates_shape
  (section : str) (max_words : Z) (Hw : (1 <= max_words)%Z) :
  let n := Z.of_nat (length (Py.split section)) in
  exists cands,
    section_candidates max_words section = Ok cands
    /\ Z.of_nat (length cands) = ((n + max_words - 1) / max_words)%Z
    /\ forall i c,
         cands !! i = Some c ->
         Z.of_nat (length (Py.split c))
         = Z.min max_words (n - Z.of_nat i * max_words).
Proof.
  intros n. exists (candidates_of max_words section).
  split; [apply section_candidates_ok; lia|].
  assert (Hcount : (0 <= (n + max_words - 1) / max_words)%Z)
    by (apply Z.div_pos; lia).
  split.
  - unfold candidates_of. rewrite length_map, windows_pos by lia.
    rewrite length_map, length_seq. fold n. lia.
  - intros i c Hc.
    assert (Hs : List.map Py.split (candidates_of max_words section) !! i
                 = Some (Py.split c)).
    { change (List.map Py.split (candidates_of max_words section))
        with (Py.split <$> candidates_of max_words section).
      by rewrite list_lookup_fmap, Hc. }
    rewrite candidate_words, windows_pos in Hs by lia.
    change (List.map ?f ?l) with (f <$> l) in Hs.
    rewrite list_lookup_fmap in Hs.
    destruct (seq 0 _ !! i) as [j|] eqn:Ej; [|done].
    apply lookup_seq in Ej as [-> Hi]. simpl in Hs. inversion Hs as [Hs'].
    rewrite length_take, length_drop. fold n in Hi.
    assert (Z.of_nat i * max_words < n)%Z.
    { pose proof (Z.div_mod (n + max_words - 1) max_words ltac:(lia)) as E.
      pose proof (Z.mod_pos_bound (n + max_words - 1) max_words ltac:(lia)).
      nia. }
    unfold n in *. nia.
Qed.

Lemma section_candidates_shape_witness :
  (1 <= 4)%Z
  /\ let n := Z.of_nat (length (Py.split sample_text)) in
     exists cands,
       section_candidates 4 sample_text = Ok cands
       /\ Z.of_nat (length cands) = ((n + 4 - 1) / 4)%Z
       /\ forall i c,
            cands !! i = Some c ->
            Z.of_nat (length (Py.split c)) = Z.min 4 (n - Z.of_nat i * 4).
Proof.
  split; [lia | apply (section_candidates_shape sample_text 4); lia].
Defined.

End ChunkerMore.

Section ChunkLength.

Lemma joined_length_cons w ws :
  joined_length (w :: ws) <= length w + 1 + joined_length ws
  /\ length w <= joined_length (w :: ws)
  /\ joined_length ws <= joined_length (w :: ws).
Proof.
  unfold joined_length. destruct ws as [|w' ws']; [simpl; lia|].
  rewrite join_cons2, length_app. simpl. lia.
Qed.

Lemma joined_length_flush cur ws :
  joined_length (flush cur ws) <= length cur + 1 + joined_length ws
  /\ (ws = [] -> joined_length (flush cur ws) <= length cur).
Proof.
  destruct cur as [|c cur]; simpl.
  - split; [lia|]. by intros ->.
  - assert (length (rev cur ++ [c]) = S (length cur)) as Hl
      by (rewrite length_app, length_rev; simpl; lia).
    split.
    + destruct (joined_length_cons (rev cur ++ [c]) ws) as [H _].
      rewrite Hl in H. etrans; [exact H|]. lia.
    + intros ->. unfold joined_length. simpl. rewrite Hl. lia.
Qed.

Lemma joined_length_split_from s : forall cur,
  joined_length (Py.split_from cur s) <= length cur + length s.
Proof.
  induction s as [|c t IH]; intros cur; simpl.
  - destruct (joined_length_flush cur []) as [_ H]. specialize (H eq_refl). lia.
  - destruct (isspace c).
    + destruct (joined_length_flush cur (Py.split_from [] t)) as [H _].
      specialize (IH []). simpl in IH. lia.
    + specialize (IH (c :: cur)). simpl in IH. lia.
Qed.

Lemma joined_length_drop n ws : joined_length (drop n ws) <= joined_length ws.
Proof.
  revert n. induction ws as [|w ws IH]; intros [|n]; simpl; try lia.
  specialize (IH n). pose proof (joined_length_cons w ws). lia.
Qed.

Lemma joined_length_eq w ws :
  joined_length (w :: ws)
  = length w + match ws with [] => 0 | _ :: _ => 1 + joined_length ws end.
Proof.
  unfold joined_length. destruct ws as [|w' ws']; [simpl; lia|].
  rewrite join_cons2, length_app. simpl. lia.
Qed.

Lemma joined_length_take n ws : joined_length (take n ws) <= joined_length ws.
Proof.
  revert n. induction ws as [|w ws IH]; intros [|n];
    try (unfold joined_length; simpl; lia).
  change (take (S n) (w :: ws)) with (w :: take n ws).
  rewrite !joined_length_eq. specialize (IH n).
  destruct ws as [|w' ws']; [by rewrite take_nil|].
  destruct (take n (w' :: ws')); lia.
Qed.

Lemma piece_length pieces : forall seps p,
  In p pieces -> length pieces = S (length seps) ->
  length p <= length (interleave pieces seps).
Proof.
  induction pieces as [|p0 ps IH]; intros seps p Hin Hlen; [done|].
  destruct seps as [|s ss].
  - destruct ps; [|done]. destruct Hin as [->|[]]. done.
  - simpl. rewrite !length_app. destruct Hin as [->|Hin]; [lia|].
    simpl in Hlen. specialize (IH ss p Hin ltac:(lia)). lia.
Qed.

Lemma section_length txt section :
  In section (sections_of txt) -> length section <= length txt.
Proof.
  intros Hin.
  destruct (split_from_interleave Re.header header_bounded header_exact
              txt 0 [] ltac:(lia)) as (seps & H1 & _ & H3).
  simpl in H3. unfold sections_of in Hin. unfold Re.split in Hin.
  pose proof (piece_length _ seps section Hin H1) as Hp.
  by rewrite H3 in Hp.
Qed.

(** X9.  No chunk is longer than the text it is cut from, and each is
    longer than 50 characters; so a text of at most 50 characters yields
    no chunk at all. *)
Theorem chunk_length_bounds
  (txt : str) (chunk_size : Z) (chunks : list str)
  (Hchunks : split_into_chunks txt chunk_size = Ok chunks) :
  Forall (fun c => 50 < length c <= length txt) chunks
  /\ (length txt <= 50 -> chunks = []).
Proof.
  assert (Hall : Forall (fun c => 50 < length c <= length txt) chunks).
  { apply Forall_forall. intros c Hc.
    destruct (chunk_is_joined_window _ _ _ _ Hchunks Hc)
      as (sec & win & Hsec & Hwin & Hword & -> & Hk).
    split.
    - apply keep_spec in Hk. rewrite join_strip in Hk by done. exact Hk.
    - etrans; [|apply (section_length _ _ Hsec)].
      pose proof (joined_length_split_from sec []) as Hs. simpl in Hs.
      fold (Py.split sec) in Hs. unfold windows in Hwin.
      apply in_map_iff in Hwin as (start & <- & _). unfold slice.
      fold (joined_length (take (Z.to_nat (start + chunk_size - start))
                                (drop (Z.to_nat start) (Py.split sec)))).
      etrans; [apply joined_length_take|].
      etrans; [apply joined_length_drop|]. exact Hs. }
  split; [done|]. intros Hshort.
  destruct chunks as [|c cs]; [done|].
  inversion Hall as [|? ? [H1 H2] _]; subst. lia.
Qed.

Lemma chunk_length_bounds_witness :
  split_into_chunks sample_text 6 = Ok [sample_text]
  /\ Forall (fun c => 50 < length c <= length sample_text) [sample_text]
  /\ (length sample_text <= 50 -> [sample_text] = []).
Proof.
  split; [vm_compute; reflexivity|].
  apply (chunk_length_bounds sample_text 6). vm_compute; reflexivity.
Defined.

End ChunkLength.

(** * More about ingestion *)

Section IngestMore.

Lemma for_each_ext {A S} (b1 b2 : S -> A -> result S) l :
  (forall acc x, b1 acc x = b2 acc x) ->
  forall acc, for_each b1 l acc = for_each b2 l acc.
Proof.
  intros Hb. induction l as [|x l IH]; intros acc; simpl; [done|].
  rewrite Hb. destruct (b2 acc x); simpl; [apply IH | done].
Qed.

Lemma appending_acc {A B} (f : A -> result (list B)) l : forall acc,
  for_each (appending f) l acc
  = do r <- for_each (appending f) l []; Ok (acc ++ r).
Proof.
  induction l as [|x l IH]; intros acc; simpl.
  - by rewrite app_nil_r.
  - unfold appending at 1 3. destruct (f x) as [cs|e]; simpl; [|done].
    rewrite (IH (acc ++ cs)), (IH cs).
    destruct (for_each (appending f) l []); simpl; [|done].
    by rewrite app_assoc.
Qed.

Lemma appending_app {A B} (f : A -> result (list B)) l1 l2 :
  for_each (appending f) (l1 ++ l2) []
  = do a <- for_each (appending f) l1 [];
    do b <- for_each (appending f) l2 []; Ok (a ++ b).
Proof.
  rewrite for_each_app.
  destruct (for_each (appending f) l1 []) as [a|e]; simpl; [|done].
  apply appending_acc.
Qed.

Lemma appending_Ok_inv {A B} (f : A -> result (list B)) l : forall acc r y,
  for_each (appending f) l acc = Ok r -> y ∈ r ->
  y ∈ acc \/ exists x ys, x ∈ l /\ f x = Ok ys /\ y ∈ ys.
Proof.
  induction l as [|x l IH]; intros acc r y H Hy; simpl in H.
  - inversion H; subst. by left.
  - unfold appending at 1 in H. destruct (f x) as [cs|e] eqn:E; [|done].
    simpl in H. destruct (IH _ _ _ H Hy) as [Hacc|(x' & ys & Hx & Hf & Hys)].
    + apply elem_of_app in Hacc as [?|?]; [by left|].
      right. exists x, cs. split; [left|done].
    + right. exists x', ys. split; [by right|done].
Qed.

Lemma appending_raise_inv {A B} (f : A -> result (list B)) l : forall acc e,
  for_each (appending f) l acc = Raise e ->
  exists x, x ∈ l /\ f x = Raise e.
Proof.
  induction l as [|x l IH]; intros acc e H; simpl in H; [done|].
  unfold appending at 1 in H. destruct (f x) as [cs|e'] eqn:E; simpl in H.
  - destruct (IH _ _ H) as (x' & Hx & Hf). exists x'. split; [by right|done].
  - inversion H; subst. exists x. split; [left|done].
Qed.

Lemma appending_raises {A B} (f : A -> result (list B)) l x e :
  x ∈ l -> f x = Raise e ->
  (forall y e', f y = Raise e' -> e' = e) ->
  forall acc, for_each (appending f) l acc = Raise e.
Proof.
  intros Hx Hf Hall. induction l as [|y l IH]; intros acc.
  - by apply elem_of_nil in Hx.
  - simpl. unfold appending at 1. destruct (f y) as [cs|e'] eqn:E; simpl.
    + apply elem_of_cons in Hx as [->|Hx]; [congruence|]. by apply IH.
    + f_equal. by eapply Hall.
Qed.

Lemma ingest_appending walk :
  ingest_raw_documents walk = for_each (appending file_result) walk [].
Proof.
  unfold ingest_raw_documents. apply for_each_ext. intros acc f.
  unfold appending, file_result, is_markdown.
  destruct (negb (endswith (filename f) (lit ".md"))); simpl.
  - by rewrite app_nil_r.
  - destruct (read_markdown_file f) as [raw|e]; simpl; [|done].
    by destruct (split_into_chunks _ _).
Qed.

Lemma file_result_raise f e :
  file_result f = Raise e ->
  is_markdown f = true /\ read_markdown_file f = Raise e
  /\ (e = OSError \/ e = UnicodeDecodeError).
Proof.
  unfold file_result, read_markdown_file.
  destruct (is_markdown f); simpl; [|done].
  destruct (contents f) as [raw| |]; simpl.
  - rewrite split_into_chunks_ok by done. done.
  - intros H. inversion H. auto.
  - intros H. inversion H. auto.
Qed.

Lemma file_result_unreadable f :
  is_markdown f = true -> (forall t, contents f <> Text t) ->
  exists e, file_result f = Raise e /\ read_markdown_file f = Raise e.
Proof.
  intros Hmd Hbad. unfold file_result, read_markdown_file. rewrite Hmd. simpl.
  destruct (contents f) as [raw| |]; simpl; [by destruct (Hbad raw) | eauto..].
Qed.

Lemma file_result_Ok f ds :
  file_result f = Ok ds -> ds <> [] ->
  exists raw chunks,
    is_markdown f = true /\ contents f = Text raw
    /\ split_into_chunks (clean_markdown_text raw) Config.CHUNK_SIZE = Ok chunks
    /\ ds = List.map (fun chunk => Doc chunk (relative_source f)) chunks.
Proof.
  unfold file_result, read_markdown_file.
  destruct (is_markdown f); simpl; [|by intros [= <-]].
  destruct (contents f) as [raw| |]; simpl; [|done..].
  destruct (split_into_chunks _ _) as [chunks|] eqn:E; simpl; [|done].
  intros [= <-] _. by exists raw, chunks.
Qed.

(** A loop that appends raises as soon as one element does, with the
    exception of the first element that raises. *)
Lemma appending_raises_some {A B} (f : A -> result (list B)) l x e :
  x ∈ l -> f x = Raise e ->
  forall acc, exists y e',
    for_each (appending f) l acc = Raise e' /\ y ∈ l /\ f y = Raise e'.
Proof.
  intros Hx Hf. induction l as [|y l IH]; intros acc.
  - by apply elem_of_nil in Hx.
  - simpl. unfold appending at 1. destruct (f y) as [cs|e'] eqn:E; simpl.
    + apply elem_of_cons in Hx as [->|Hx]; [congruence|].
      destruct (IH Hx (acc ++ cs)) as (z & e'' & H1 & H2 & H3).
      exists z, e''. split; [done|]. split; [by right|done].
    + exists y, e'. split; [done|]. split; [left|done].
Qed.

(** X10.  Ingestion of two walks one after the other is the ingestion of
    each, the documents of the first before those of the second: the
    corpus keeps the order of the walk, and an error in either part is an
    error of the whole. *)
Theorem ingest_raw_documents_app (walk1 walk2 : list walked) :
  ingest_raw_documents (walk1 ++ walk2)
  = do docs1 <- ingest_raw_documents walk1;
    do docs2 <- ingest_raw_documents walk2;
    Ok (docs1 ++ docs2).
Proof. rewrite !ingest_appending. apply appending_app. Qed.

(** X11.  One markdown file that cannot be read makes the whole ingestion
    raise, wherever the file is in the walk and whatever the other files
    hold: no partial corpus is returned.  The exception is the one that
    reading a markdown file of the walk raised: [OSError] for a file that
    cannot be opened, [UnicodeDecodeError] for one that is not UTF-8. *)
Theorem ingest_unreadable_markdown_raises
  (walk : list walked) (f : walked)
  (Hin : f ∈ walk) (Hmd : is_markdown f = true)
  (Hbad : forall t, contents f <> Text t) :
  exists g e,
    ingest_raw_documents walk = Raise e
    /\ g ∈ walk /\ is_markdown g = true
    /\ read_markdown_file g = Raise e
    /\ (e = OSError \/ e = UnicodeDecodeError).
Proof.
  rewrite ingest_appending.
  destruct (file_result_unreadable f Hmd Hbad) as (e0 & He0 & _).
  destruct (appending_raises_some file_result walk f e0 Hin He0 [])
    as (g & e & Hr & Hg & He).
  apply file_result_raise in He as (Hgmd & Hread & Hkind).
  by exists g, e.
Qed.

(** X12.  Ingestion raises only what reading one of its markdown files
    raised, [OSError] or [UnicodeDecodeError]: with the configured chunk
    size the cleaner and the chunker never fail. *)
Theorem ingest_raises_only_unreadable
  (walk : list walked) (e : exn)
  (Hraise : ingest_raw_documents walk = Raise e) :
  (e = OSError \/ e = UnicodeDecodeError)
  /\ exists f,
       f ∈ walk /\ is_markdown f = true /\ read_markdown_file f = Raise e.
Proof.
  rewrite ingest_appending in Hraise.
  apply appending_raise_inv in Hraise as (f & Hf & He).
  apply file_result_raise in He as (Hmd & Hread & Hkind). split; [done|].
  by exists f.
Qed.

(** X13.  Where the documents come from: every document of the corpus
    carries the relative path of a markdown file of the walk, and its text
    is a chunk of the cleaned contents of that very file. *)
Theorem ingest_sources
  (walk : list walked) (documents : list doc)
  (Hdocs : ingest_raw_documents walk = Ok documents) :
  Forall (fun d =>
            exists f raw chunks,
              f ∈ walk /\ is_markdown f = true /\ contents f = Text raw
              /\ source d = relative_source f
              /\ split_into_chunks (clean_markdown_text raw) Config.CHUNK_SIZE
                 = Ok chunks
              /\ text d ∈ chunks) documents.
Proof.
  rewrite ingest_appending in Hdocs. apply Forall_forall. intros d Hd.
  destruct (appending_Ok_inv _ _ _ _ _ Hdocs Hd) as [Hnil|(f & ds & Hf & Hr & Hds)].
  { by apply elem_of_nil in Hnil. }
  destruct (file_result_Ok f ds Hr) as (raw & chunks & Hmd & Hc & Hs & ->).
  { intros ->. by apply elem_of_nil in Hds. }
  apply list_elem_of_In, in_map_iff in Hds as (c & <- & Hcin).
  exists f, raw, chunks. repeat split; try done. by apply list_elem_of_In.
Qed.

(** X14.  Files whose name does not end in [.md] have no effect on
    ingestion, readable or not: the corpus is that of the markdown files
    alone. *)
Theorem ingest_ignores_other_files (walk : list walked) :
  ingest_raw_documents (List.filter is_markdown walk)
  = ingest_raw_documents walk.
Proof.
  rewrite !ingest_appending. generalize (@nil doc).
  induction walk as [|f walk IH]; intros acc; [done|]. simpl.
  destruct (is_markdown f) eqn:E; simpl.
  - unfold appending at 1 3. destruct (file_result f); simpl; [apply IH|done].
  - rewrite IH. unfold appending at 2. unfold file_result. rewrite E. simpl.
    by rewrite app_nil_r.
Qed.

End IngestMore.

Lemma ingest_unreadable_markdown_raises_witness :
  ingest_raw_documents broken_walk = Raise UnicodeDecodeError
  /\ exists g e,
       ingest_raw_documents broken_walk = Raise e
       /\ g ∈ broken_walk /\ is_markdown g = true
       /\ read_markdown_file g = Raise e
       /\ (e = OSError \/ e = UnicodeDecodeError).
Proof.
  split; [vm_compute; reflexivity|].
  apply (ingest_unreadable_markdown_raises broken_walk
           (Walked (lit "latin1.md") (lit "latin1.md") Undecodable)).
  - apply list_elem_of_In. simpl. tauto.
  - vm_compute; reflexivity.
  - intros t; discriminate.
Defined.

Lemma ingest_raises_only_unreadable_witness :
  (UnicodeDecodeError = OSError \/ UnicodeDecodeError = UnicodeDecodeError)
  /\ exists f,
       f ∈ broken_walk /\ is_markdown f = true
       /\ read_markdown_file f = Raise UnicodeDecodeError.
Proof.
  apply (ingest_raises_only_unreadable broken_walk UnicodeDecodeError).
  vm_compute; reflexivity.
Defined.

Lemma ingest_sources_witness :
  Forall (fun d =>
            exists f raw chunks,
              f ∈ sample_walk /\ is_markdown f = true /\ contents f = Text raw
              /\ source d = relative_source f
              /\ split_into_chunks (clean_markdown_text raw) Config.CHUNK_SIZE
                 = Ok chunks
              /\ text d ∈ chunks)
         [Doc sample_text (lit "api/guide.md")].
Proof.
  apply (ingest_sources sample_walk). vm_compute; reflexivity.
Defined.

Section IngestWords.

Lemma chunk_word_count txt w chunks c :
  (1 <= w)%Z -> split_into_chunks txt w = Ok chunks -> c ∈ chunks ->
  (1 <= Z.of_nat (length (Py.split c)) <= w)%Z.
Proof.
  intros Hw H Hc.
  destruct (chunk_is_joined_window _ _ _ _ H Hc)
    as (sec & win & _ & Hwin & Hword & -> & Hk).
  rewrite split_join by done. split.
  - destruct win as [|x win]; [|simpl; lia]. by vm_compute in Hk.
  - pose proof (windows_bound w (Py.split sec) Hw) as Hb.
    rewrite Forall_forall in Hb. apply Hb. by apply list_elem_of_In.
Qed.

(** X15.  Every document of the ingested corpus has at least one word and
    at most [CHUNK_SIZE = 500] words. *)
Theorem ingest_word_counts
  (walk : list walked) (documents : list doc)
  (Hdocs : ingest_raw_documents walk = Ok documents) :
  Forall (fun d => 1 <= length (Py.split (text d)) <= 500) documents.
Proof.
  rewrite ingest_appending in Hdocs. apply Forall_forall. intros d Hd.
  destruct (appending_Ok_inv _ _ _ _ _ Hdocs Hd) as [Hnil|(f & ds & Hf & Hr & Hds)].
  { by apply elem_of_nil in Hnil. }
  destruct (file_result_Ok f ds Hr) as (raw & chunks & Hmd & Hc & Hs & ->).
  { intros ->. by apply elem_of_nil in Hds. }
  apply list_elem_of_In, in_map_iff in Hds as (c & <- & Hcin). simpl.
  assert (1 <= Config.CHUNK_SIZE)%Z as Hsize by done.
  pose proof (chunk_word_count _ _ _ c Hsize Hs
                ltac:(by apply list_elem_of_In)) as Hw.
  unfold Config.CHUNK_SIZE in Hw. lia.
Qed.

End IngestWords.

Lemma ingest_word_counts_witness :
  Forall (fun d => 1 <= length (Py.split (text d)) <= 500)
         [Doc sample_text (lit "api/guide.md")].
Proof.
  apply (ingest_word_counts sample_walk). vm_compute; reflexivity.
Defined.

(** * More about the index build *)

Section BuildMore.

Context {F : Type} (Fzero : F) (Fadd Fmul : F -> F -> F)
        (Fltb : F -> F -> bool) (embed : str -> list F).

Local Abbreviation build := (build_index F embed).
Local Abbreviation retrieve := (retrieve_documents F Fzero Fadd Fmul Fltb).
Local Abbreviation labels := (search_labels F Fzero Fadd Fmul Fltb).

(** What a successful build leaves on disk. *)
Lemma build_index_Ok (walk : list walked) (σ : disk F) first others :
  ingest_raw_documents walk = Ok (first :: others) ->
  let documents := first :: others in
  let rows := encode F embed (List.map text documents) in
  build walk σ
  = (Ok tt,
     write_file Config.INDEX_PATH
       (FaissIndex (IndexFlatIP (length (embed (text first))) rows))
       (write_file Config.DOCS_PATH (Pickle documents)
          (write_file Config.EMBEDDINGS_PATH (Npy rows)
             (makedirs Config.PROCESSED_DATA_DIR σ)))).
Proof. intros H. unfold build_index. rewrite H. reflexivity. Qed.

(** X16.  A markdown file that cannot be read aborts the build before
    anything is written: the build raises what reading raised ([OSError]
    or [UnicodeDecodeError]) and the disk is left as it was. *)
Theorem build_index_unreadable_aborts
  (walk : list walked) (σ : disk F) (f : walked)
  (Hin : f ∈ walk) (Hmd : is_markdown f = true)
  (Hbad : forall t, contents f <> Text t) :
  exists e,
    build walk σ = (Raise e, σ)
    /\ (e = OSError \/ e = UnicodeDecodeError).
Proof.
  unfold build_index.
  destruct (file_result_unreadable f Hmd Hbad) as (e0 & He0 & _).
  destruct (appending_raises_some file_result walk f e0 Hin He0 [])
    as (g & e & Hr & Hg & He).
  apply file_result_raise in He as (_ & _ & Hkind).
  exists e. rewrite ingest_appending, Hr. done.
Qed.

(** X18.  Build, then load: after a build over a corpus that is not empty,
    [load_faiss_index] returns the ingested corpus and an index whose
    vectors are the embeddings of the corpus texts, one per document and
    in the same order, whatever the disk held before. *)
Theorem build_index_then_load
  (walk : list walked) (σ : disk F) (first : doc) (others : list doc)
  (Hdocs : ingest_raw_documents walk = Ok (first :: others)) :
  let documents := first :: others in
  load_faiss_index (build walk σ).2
  = Ok (IndexFlatIP (length (embed (text first)))
          (List.map (fun d => embed (text d)) documents),
        documents).
Proof.
  intros documents. rewrite (build_index_Ok _ _ _ _ Hdocs). cbn [snd].
  unfold load_faiss_index, write_file. cbn [files].
  rewrite lookup_insert_eq.
  rewrite lookup_insert_ne, lookup_insert_eq by done.
  unfold encode. by rewrite List.map_map.
Qed.

(** X19.  In the data directory the build writes its three artifacts and
    nothing else: whether it succeeds or fails, every other file there is
    left as it was, and no directory is removed. *)
Theorem build_index_keeps_other_files
  (walk : list walked) (σ : disk F) (p : string)
  (Hindex : p <> Config.INDEX_PATH)
  (Hdocs : p <> Config.DOCS_PATH)
  (Hemb : p <> Config.EMBEDDINGS_PATH) :
  files (build walk σ).2 !! p = files σ !! p
  /\ dirs σ ⊆ dirs (build walk σ).2.
Proof.
  destruct (ingest_raw_documents walk) as [[|first others]|e] eqn:E.
  - unfold build_index. by rewrite E.
  - rewrite (build_index_Ok _ _ _ _ E). cbn [snd].
    unfold write_file, makedirs. cbn [dirs files].
    split; [|apply union_subseteq_r].
    by rewrite !lookup_insert_ne by done.
  - unfold build_index. by rewrite E.
Qed.

(** X20.  Build, then retrieve: on the index that a successful build
    leaves, a query vector of the embedding dimension and any
    [top_k >= 1] give a result of [top_k] entries, each a document of the
    ingested corpus. *)
Theorem build_index_then_retrieve
  (walk : list walked) (σ : disk F) (first : doc) (others : list doc)
  (v : list F) (top_k : Z)
  (Hdocs : ingest_raw_documents walk = Ok (first :: others))
  (Hdim : length v = length (embed (text first)))
  (Hk : (1 <= top_k)%Z) :
  exists results,
    retrieve (build walk σ).2 (Array1 v) top_k = Ok results
    /\ Z.of_nat (length results) = top_k
    /\ Forall (fun d => d ∈ first :: others) results.
Proof.
  pose proof (build_index_Ok walk σ _ _ Hdocs) as Hb. cbv zeta in Hb.
  set (documents := first :: others) in *.
  set (ix := IndexFlatIP (length (embed (text first)))
               (encode F embed (List.map text documents))).
  assert (Hload : load_faiss_index (build walk σ).2 = Ok (ix, documents)).
  { rewrite Hb. cbn [snd]. unfold load_faiss_index, write_file. cbn [files].
    rewrite lookup_insert_eq.
    by rewrite lookup_insert_ne, lookup_insert_eq by done. }
  change (retrieve (build walk σ).2 (Array1 v) top_k)
    with (retrieve (build walk σ).2 (Array2 (length v) [v]) top_k).
  rewrite (retrieve_unfold _ _ _ _ _ _ _ _ _ ix documents)
    by (done || lia).
  assert (Hrange :
    Forall (fun i => (- Z.of_nat (length documents) <= i
                      < Z.of_nat (length documents))%Z)
           (labels ix v (Z.to_nat top_k))).
  { eapply Forall_impl; [apply search_labels_range|].
    intros i Hi. cbv beta in Hi. unfold ix, encode in Hi. cbn [ix_xb] in Hi.
    rewrite !length_map in Hi. unfold documents in *. simpl in *. lia. }
  destruct (collect_total documents _ Hrange []) as [results Hr].
  exists results. split; [done|]. split.
  - apply collect_length in Hr. rewrite search_labels_length in Hr.
    simpl in Hr. lia.
  - apply (collect_elems _ _ _ _ Hr). constructor.
Qed.

End BuildMore.

Section Rebuild.

Context {F : Type} (embed1 embed2 : str -> list F).

(** X17.  A rebuild replaces the artifacts wholesale.  The embedder is
    built anew at each run and need not give the same vectors twice:
    whatever vectors an earlier build over the same files stored, a
    build leaves the disk as if the earlier one had not run, and returns
    the same outcome. *)
Theorem build_index_rebuild_overwrites (walk : list walked) (σ : disk F) :
  build_index F embed2 walk (build_index F embed1 walk σ).2
  = build_index F embed2 walk σ.
Proof.
  destruct (ingest_raw_documents walk) as [[|first others]|e] eqn:E.
  - unfold build_index. by rewrite E.
  - rewrite (build_index_Ok embed1 _ _ _ _ E).
    rewrite !(build_index_Ok embed2 _ _ _ _ E). cbn [snd]. f_equal.
    unfold write_file, makedirs. cbn [dirs files]. f_equal.
    + by rewrite (assoc_L (∪)), (idemp_L (∪)).
    + apply map_eq. intros p.
      destruct (decide (p = Config.INDEX_PATH)) as [->|?];
        [by rewrite !lookup_insert_eq|].
      rewrite !(lookup_insert_ne _ Config.INDEX_PATH) by done.
      destruct (decide (p = Config.DOCS_PATH)) as [->|?];
        [by rewrite !lookup_insert_eq|].
      rewrite !(lookup_insert_ne _ Config.DOCS_PATH) by done.
      destruct (decide (p = Config.EMBEDDINGS_PATH)) as [->|?];
        [by rewrite !lookup_insert_eq|].
      rewrite !lookup_insert_ne by done. done.
  - unfold build_index. by rewrite E.
Qed.

End Rebuild.

Lemma build_index_rebuild_overwrites_witness :
  files (build_index Z sample_embed corpus_walk used_disk).2
    !! Config.EMBEDDINGS_PATH
  = Some (Npy [[59; 1]; [65; 1]; [55; 1]]%Z)
  /\ files (build_index Z other_embed corpus_walk used_disk).2
       !! Config.EMBEDDINGS_PATH
     = Some (Npy [[1; 59]; [1; 65]; [1; 55]]%Z)
  /\ build_index Z other_embed corpus_walk
       (build_index Z sample_embed corpus_walk used_disk).2
     = build_index Z other_embed corpus_walk used_disk.
Proof.
  split; [vm_compute; reflexivity|]. split; [vm_compute; reflexivity|].
  apply (build_index_rebuild_overwrites sample_embed other_embed
           corpus_walk used_disk).
Defined.

(** * Retrieval never meets an empty corpus *)

Section BuiltCorpus.

Context {F : Type} (Fzero : F) (Fadd Fmul : F -> F -> F)
        (Fltb : F -> F -> bool) (embed : str -> list F).

Local Abbreviation build := (build_index F embed).
Local Abbreviation retrieve := (retrieve_documents F Fzero Fadd Fmul Fltb).
Local Abbreviation labels := (search_labels F Fzero Fadd Fmul Fltb).


End BuiltCorpus.


Lemma build_index_unreadable_aborts_witness :
  build_index Z sample_embed broken_walk empty_disk
  = (Raise UnicodeDecodeError, empty_disk)
  /\ exists e,
       build_index Z sample_embed broken_walk empty_disk = (Raise e, empty_disk)
       /\ (e = OSError \/ e = UnicodeDecodeError).
Proof.
  split; [vm_compute; reflexivity|].
  apply (build_index_unreadable_aborts sample_embed broken_walk empty_disk
           (Walked (lit "latin1.md") (lit "latin1.md") Undecodable)).
  - apply list_elem_of_In. simpl. tauto.
  - vm_compute; reflexivity.
  - intros t; discriminate.
Defined.

Lemma build_index_then_load_witness :
  load_faiss_index (build_index Z sample_embed sample_walk empty_disk).2
  = Ok (IndexFlatIP (length (sample_embed sample_text))
          (List.map (fun d => sample_embed (text d))
                    [Doc sample_text (lit "api/guide.md")]),
        [Doc sample_text (lit "api/guide.md")]).
Proof.
  apply (build_index_then_load sample_embed sample_walk empty_disk
           (Doc sample_text (lit "api/guide.md")) []).
  vm_compute; reflexivity.
Defined.

Lemma build_index_keeps_other_files_witness :
  files used_disk !! "data/processed/notes.npy"%string
  = Some (Npy [[7; 7]%Z])
  /\ files (build_index Z sample_embed corpus_walk used_disk).2
       !! "data/processed/notes.npy"%string
     = files used_disk !! "data/processed/notes.npy"%string
  /\ dirs used_disk
     ⊆ dirs (build_index Z sample_embed corpus_walk used_disk).2.
Proof.
  split; [vm_compute; reflexivity|].
  apply (build_index_keeps_other_files sample_embed corpus_walk used_disk);
    vm_compute; discriminate.
Defined.

Lemma build_index_then_retrieve_witness :
  exists results,
    retrieve_Z (build_index Z sample_embed corpus_walk empty_disk).2
      (Array1 [1; 0]%Z) 5 = Ok results
    /\ Z.of_nat (length results) = 5%Z
    /\ Forall (fun d => d ∈ corpus_documents) results.
Proof.
  apply (build_index_then_retrieve 0%Z Z.add Z.mul Z.ltb sample_embed
           corpus_walk empty_disk (Doc text_a (lit "a.md"))
           [Doc text_b (lit "b.md"); Doc text_c (lit "c.md")] [1; 0]%Z 5).
  - vm_compute; reflexivity.
  - reflexivity.
  - lia.
Defined.

(** * More about the cleaner *)

Section CleanerMore.

Lemma sub_from_Forall (P : char -> Prop) m repl s : forall skip,
  Forall P repl -> Forall P s -> Forall P (Re.sub_from m repl skip s).
Proof.
  induction s as [|c t IH]; intros skip Hr Hs; [constructor|].
  inversion Hs as [|? ? Hc Ht]; subst. destruct skip as [|k]; cbn [Re.sub_from].
  - destruct (m (c :: t)) as [[|k]|].
    + constructor; [done | by apply IH].
    + apply Forall_app. split; [done | by apply IH].
    + constructor; [done | by apply IH].
  - by apply IH.
Qed.

Lemma strip_all_space s : Forall (fun c => isspace c = true) s -> strip s = [].
Proof.
  intros H. unfold strip, lstrip.
  assert (drop_while isspace s = []) as ->; [|done].
  induction H as [|c t Hc _ IH]; [done|]. simpl. by rewrite Hc.
Qed.

Lemma strip_head s c t : strip s = c :: t -> isspace c = false.
Proof.
  unfold strip. destruct (rstrip_take (lstrip s)) as [n ->].
  unfold lstrip. intros H.
  destruct (drop_while isspace s) as [|x r] eqn:E; [by rewrite take_nil in H|].
  destruct n; [done|]. simpl in H. inversion H; subst.
  by eapply drop_while_head.
Qed.

Lemma strip_last s i c : strip s = i ++ [c] -> isspace c = false.
Proof.
  unfold strip, rstrip. intros H.
  apply (f_equal (@rev _)) in H. rewrite rev_involutive, rev_app_distr in H.
  simpl in H. by eapply drop_while_head.
Qed.

Lemma no3_no_triple s a b : no3 s -> s <> a ++ [NL; NL; NL] ++ b.
Proof.
  revert s. induction a as [|x a IH]; intros s H ->.
  - simpl in H. destruct H as [H _]. unfold nl_run in H. simpl in H.
    change (Re.is_nl NL) with true in H. simpl in H. lia.
  - simpl in H. destruct H as [_ H]. by eapply IH.
Qed.

Lemma single_blanks_no_tab s : single_blanks s -> ~ In TAB s.
Proof.
  induction s as [|c t IH]; intros H Hin; [done|].
  destruct H as [H1 H2]. destruct Hin as [->|Hin]; [|by apply IH].
  by destruct (H1 eq_refl).
Qed.

Lemma single_blanks_no_double s a b :
  single_blanks s -> s <> a ++ [SPACE; SPACE] ++ b.
Proof.
  revert s. induction a as [|x a IH]; intros s H ->.
  - simpl in H. destruct H as [H _]. by destruct (H eq_refl).
  - simpl in H. destruct H as [_ H]. by eapply IH.
Qed.

(** X21.  What a cleaned text looks like, for every input: it neither
    starts nor ends with a whitespace character, it holds no tab, no two
    spaces in a row and no three newlines in a row. *)
Theorem clean_markdown_text_normal_form (t : str) :
  let u := clean_markdown_text t in
  (forall c rest, u = c :: rest -> isspace c = false)
  /\ (forall init c, u = init ++ [c] -> isspace c = false)
  /\ ~ In TAB u
  /\ (forall a b, u <> a ++ [SPACE; SPACE] ++ b)
  /\ (forall a b, u <> a ++ [NL; NL; NL] ++ b).
Proof.
  intros u. unfold u. rewrite clean_markdown_text_unfold.
  set (x := Re.sub Re.headerlink [] (Re.sub Re.anchor [] t)).
  assert (Hs : single_blanks (strip (squeeze_blanks (squeeze_newlines x)))).
  { apply strip_single_blanks, squeeze_blanks_single. }
  assert (Hn : no3 (strip (squeeze_blanks (squeeze_newlines x)))).
  { apply strip_no3, squeeze_blanks_no3, squeeze_newlines_no3. }
  split; [intros c rest; apply strip_head|].
  split; [intros init c; apply strip_last|].
  split; [by apply single_blanks_no_tab|].
  split; [intros a b; by apply single_blanks_no_double|].
  intros a b. by apply no3_no_triple.
Qed.

(** X22.  Cleaning never makes a text longer. *)
Theorem clean_markdown_text_length (t : str) :
  length (clean_markdown_text t) <= length t.
Proof.
  etrans; [apply clean_length_after_removal|].
  etrans; [apply sub_length; [apply headerlink_bounded | simpl; lia]|].
  apply sub_length; [apply anchor_bounded | simpl; lia].
Qed.

(** X23.  A text made of whitespace only is cleaned to the empty text. *)
Theorem clean_markdown_text_blank (t : str)
  (Hblank : Forall (fun c => isspace c = true) t) :
  clean_markdown_text t = [].
Proof.
  rewrite clean_markdown_text_unfold. apply strip_all_space.
  unfold squeeze_blanks, squeeze_newlines, Re.sub.
  apply sub_from_Forall; [by repeat constructor|].
  apply sub_from_Forall; [by repeat constructor|].
  apply sub_from_Forall; [constructor|].
  by apply sub_from_Forall; [constructor|].
Qed.

End CleanerMore.

Lemma clean_markdown_text_blank_witness :
  clean_markdown_text [SPACE; NL; TAB; NL; NL; NL; SPACE] = [].
Proof.
  apply clean_markdown_text_blank. repeat constructor.
Defined.

Lemma clean_idempotent_only_when_settled_witness :
  let t := lit "a  b {#x} c" in
  Re.search Re.anchor (clean_markdown_text t) = false
  /\ Re.search Re.headerlink (clean_markdown_text t) = false.
Proof.
  apply (clean_idempotent_only_when_settled (lit "a  b {#x} c")).
  vm_compute; reflexivity.
Defined.

(** * [recall_at_k] *)

Section RecallFacts.

Lemma recall_at_k_true (retrieved relevant : list Z) (k : Z) :
  recall_at_k retrieved relevant k = true
  <-> exists x, x ∈ slice_to retrieved k /\ x ∈ relevant.
Proof.
  unfold recall_at_k. rewrite bool_decide_eq_true. split.
  - intros H. apply size_pos_elem_of in H as [x Hx].
    apply elem_of_intersection in Hx as [H1 H2].
    apply elem_of_list_to_set in H1, H2. by exists x.
  - intros (x & H1 & H2).
    assert (x ∈ (list_to_set (slice_to retrieved k) : gset Z)
                ∩ list_to_set relevant) as Hx.
    { apply elem_of_intersection. split; by apply elem_of_list_to_set. }
    destruct (decide (size ((list_to_set (slice_to retrieved k) : gset Z)
                            ∩ list_to_set relevant) = 0)) as [E|E]; [|lia].
    apply size_empty_inv in E. rewrite E in Hx.
    by apply elem_of_empty in Hx.
Qed.

Lemma recall_at_k_same_slice (r1 r2 relevant : list Z) k1 k2 :
  slice_to r1 k1 = slice_to r2 k2 ->
  recall_at_k r1 relevant k1 = recall_at_k r2 relevant k2.
Proof. unfold recall_at_k. by intros ->. Qed.

(** X25.  For [k >= 0], [recall_at_k] is true exactly when one of the first
    [k] retrieved indices is a relevant one; duplicates and the order of
    either list do not matter beyond that. *)
Theorem recall_at_k_hit (retrieved relevant : list Z) (k : Z)
  (Hk : (0 <= k)%Z) :
  recall_at_k retrieved relevant k = true
  <-> exists i x,
        (Z.of_nat i < k)%Z /\ retrieved !! i = Some x /\ x ∈ relevant.
Proof.
  rewrite recall_at_k_true. unfold slice_to.
  destruct (Z.leb_spec 0 k); [|lia]. split.
  - intros (x & Hx & Hr). apply elem_of_take in Hx as (i & Hi & Hlt).
    exists i, x. repeat split; try done. lia.
  - intros (i & x & Hlt & Hi & Hr). exists x. split; [|done].
    apply elem_of_take. exists i. split; [done|lia].
Qed.

(** X26.  Looking at more results never loses a hit: for [0 <= k <= k'], a
    hit within the first [k] results is a hit within the first [k']. *)
Theorem recall_at_k_monotone (retrieved relevant : list Z) (k k' : Z)
  (Hk : (0 <= k <= k')%Z)
  (Hhit : recall_at_k retrieved relevant k = true) :
  recall_at_k retrieved relevant k' = true.
Proof.
  apply recall_at_k_true in Hhit as (x & Hx & Hr).
  apply recall_at_k_true. exists x. split; [|done].
  unfold slice_to in *.
  destruct (Z.leb_spec 0 k); [|lia]. destruct (Z.leb_spec 0 k'); [|lia].
  apply elem_of_take in Hx as (i & Hi & Hlt).
  apply elem_of_take. exists i. split; [done|lia].
Qed.

(** X27.  A negative [k] is no error: it leaves out the last [-k] retrieved
    indices, so [k = -1] ignores the last result, and a [k] below minus
    the number of results looks at nothing.  [k = 0] and an empty list of
    relevant indices give [False]. *)
Theorem recall_at_k_negative (retrieved relevant : list Z) (k : Z)
  (Hk : (k < 0)%Z) :
  recall_at_k retrieved relevant k
  = recall_at_k retrieved relevant
      (Z.max 0 (Z.of_nat (length retrieved) + k))
  /\ recall_at_k retrieved relevant 0 = false
  /\ recall_at_k retrieved [] k = false.
Proof.
  split; [|split].
  - apply recall_at_k_same_slice. unfold slice_to.
    destruct (Z.leb_spec 0 k); [lia|].
    destruct (Z.leb_spec 0 (Z.max 0 (Z.of_nat (length retrieved) + k)));
      [|lia].
    f_equal. lia.
  - destruct (recall_at_k retrieved relevant 0) eqn:E; [|done].
    apply recall_at_k_true in E as (x & Hx & _).
    unfold slice_to in Hx. simpl in Hx. by apply elem_of_nil in Hx.
  - destruct (recall_at_k retrieved [] k) eqn:E; [|done].
    apply recall_at_k_true in E as (x & _ & Hx). by apply elem_of_nil in Hx.
Qed.

End RecallFacts.

Lemma recall_at_k_hit_witness :
  (0 <= 2)%Z
  /\ (recall_at_k [7; 3; 9]%Z [9; 3]%Z 2 = true
      <-> exists i x,
            (Z.of_nat i < 2)%Z /\ [7; 3; 9]%Z !! i = Some x
            /\ x ∈ [9; 3]%Z).
Proof. split; [lia | apply (recall_at_k_hit [7; 3; 9]%Z [9; 3]%Z 2); lia]. Defined.

Lemma recall_at_k_monotone_witness :
  recall_at_k [7; 3; 9]%Z [9; 3]%Z 2 = true
  /\ recall_at_k [7; 3; 9]%Z [9; 3]%Z 5 = true.
Proof.
  split; [vm_compute; reflexivity|].
  apply (recall_at_k_monotone [7; 3; 9]%Z [9; 3]%Z 2 5); [lia|].
  vm_compute; reflexivity.
Defined.

Lemma recall_at_k_negative_witness :
  recall_at_k [7; 3; 9]%Z [9]%Z (-1)
  = recall_at_k [7; 3; 9]%Z [9]%Z (Z.max 0 (Z.of_nat 3 + -1))
  /\ recall_at_k [7; 3; 9]%Z [9]%Z 0 = false
  /\ recall_at_k [7; 3; 9]%Z [] (-1) = false.
Proof. apply (recall_at_k_negative [7; 3; 9]%Z [9]%Z (-1)). lia. Defined.

(** * The query handling of the UI *)

Section QueryFacts.

Context {F : Type} (Fzero : F) (Fadd Fmul : F -> F -> F)
        (Fltb : F -> F -> bool) (embed : str -> list F).

(** X28.  The context handed to the generator is always the text of a
    chunk of the loaded corpus: when the retrieval of the UI returns, it
    returns three entries, so the empty-context fallback of the UI is
    never taken. *)
Theorem query_context_is_corpus_text
  (σ : disk F) (question context : str)
  (Hctx : query_context Fzero Fadd Fmul Fltb embed σ question
          = Ok (Some context)) :
  exists ix documents d,
    load_faiss_index σ = Ok (ix, documents)
    /\ d ∈ documents
    /\ context = text d.
Proof.
  unfold query_context in Hctx. destruct question as [|c question]; [done|].
  destruct (retrieve_documents F Fzero Fadd Fmul Fltb σ _ 3)
    as [docs|e] eqn:E; [|done].
  cbn [bind] in Hctx. inversion Hctx as [Hc]. clear Hctx.
  apply retrieve_Ok_inv in E as (ix & documents & q & Hload & _ & Hcol).
  pose proof (collect_length _ _ _ _ Hcol) as Hlen.
  rewrite search_labels_length in Hlen.
  pose proof (collect_elems _ _ _ _ Hcol ltac:(constructor)) as Hin.
  destruct docs as [|d docs]; [simpl in Hlen; lia|].
  exists ix, documents, d. split; [done|]. split; [|done].
  by inversion Hin.
Qed.

End QueryFacts.

Lemma query_context_is_corpus_text_witness :
  exists ix documents d,
    load_faiss_index corpus_disk = Ok (ix, documents)
    /\ d ∈ documents
    /\ text_b = text d.
Proof.
  apply (query_context_is_corpus_text 0%Z Z.add Z.mul Z.ltb sample_embed
           corpus_disk text_a text_b).
  vm_compute; reflexivity.
Defined.
